(** * compas_cra.equilibrium.pyomo_helper

    A shallow embedding of the helper module that turns a rigid-block
    assembly into the variables, bounds, objective and constraints of an
    optimisation problem, and that copies the solved values back.

    Conventions of the embedding
    - solver values (Python floats and the expressions built from them) are
      an abstract type [V] with the operations the module uses, see [Num];
    - a Python exception (KeyError, IndexError) is [None] in the [option]
      monad; a selector that falls off its last [if] also yields [None],
      which is the Python value None it returns;
    - integers that index variables are [Z], and [Z.modulo] is Python's [%]
      for the positive moduli 3 and 4 used here;
    - objects that are mutated through references (interfaces) live in a
      store indexed by locations, so that two edges may share an interface;
    - [print] calls are not modelled. *)

From Stdlib Require Import ZArith String Lia.
From stdpp Require Import base numbers option list list_monad gmap sets strings
  sorting.

(** ** Solver values *)

Class Num (V : Type) := {
  vzero : V;
  vone : V;
  vadd : V → V → V;
  vmul : V → V → V;
  vneg : V → V
}.

#[export] Instance Z_Num : Num Z :=
  {| vzero := 0%Z; vone := 1%Z; vadd := Z.add; vmul := Z.mul; vneg := Z.opp |}.

(** ** Monadic left fold: a [for] loop whose body may raise *)

Fixpoint foldM {S A : Type} (f : S → A → option S) (s : S) (l : list A)
  : option S :=
  match l with
  | [] => Some s
  | x :: r => match f s x with
              | Some s' => foldM f s' r
              | None => None
              end
  end.

(** Python indexing of a sequence with an integer that may be negative. *)
Definition py_getitem {A : Type} (l : list A) (i : Z) : option A :=
  if (0 <=? i)%Z then l !! Z.to_nat i
  else if (- Z.of_nat (length l) <=? i)%Z
       then l !! Z.to_nat (Z.of_nat (length l) + i)
  else None.

(** Python slice [l[a:b]] for non-negative bounds. *)
Definition py_slice {A : Type} (l : list A) (a b : nat) : list A :=
  take (b - a)%nat (drop a l).

Section Formulas.
Context {V : Type} `{Num V}.
Local Open Scope Z_scope.

(** ** The optimisation model

    An indexed pyomo component is an association list from its index set,
    in the order of that set, to the values of its members. *)

Definition Var : Type := list (Z * V).

Fixpoint var_get (v : Var) (i : Z) : option V :=
  match v with
  | [] => None
  | (j, x) :: r => if j =? i then Some x else var_get r i
  end.

Definition var_len (v : Var) : nat := length v.

Record Model := {
  model_f : Var;
  model_d : Var;
  model_alpha : Var;
  model_f_id : list Z;
  model_q : option Var;            (* find_component('q') *)
  model_displs : list (list V);
  model_forces : list (list V);
  model_array_f : list Z
}.

(** [pyo.dot_product(a, b)]: the sum over the index set of [a] of
    [a[i] * b[i]], accumulated from 0. *)
Definition dot_product (a b : Var) : option V :=
  foldM (λ acc i,
           x ← var_get a i;
           y ← var_get b i;
           Some (vadd acc (vmul x y)))
        vzero (a.*1).

(** Element-wise sum of two arrays of the same shape. *)
Definition vec_add (a b : list V) : option (list V) :=
  if (length a =? length b)%nat then Some (zip_with vadd a b) else None.

(** ** initialisations *)

Definition f_tilde_init (model : Model) (i : Z) : V :=
  if i mod 4 =? 1 then vzero else vone.

Definition initialisations (variable : string) : option (Model → Z → V) :=
  if String.eqb variable "f_tilde" then Some f_tilde_init else None.

(** ** bounds *)

Inductive domain := NonNegativeReals | Reals.

Inductive bound :=
  | BDomain (dom : domain)
  | BRange (lo x hi : V).

Definition f_tilde_bnds (model : Model) (i : Z) : option bound :=
  if (i mod 4 =? 0) || (i mod 4 =? 1)
  then Some (BDomain NonNegativeReals)
  else Some (BDomain Reals).

Definition f_bnds (model : Model) (i : Z) : option bound :=
  if i mod 3 =? 0 then Some (BDomain NonNegativeReals)
  else Some (BDomain Reals).

Definition d_bnds (d_bnd : V) (model : Model) (i : Z) : option bound :=
  x ← var_get (model_d model) i;
  Some (BRange (vneg d_bnd) x d_bnd).

Definition bounds (variable : string) (d_bnd : V)
  : option (Model → Z → option bound) :=
  if String.eqb variable "f" then Some f_bnds
  else if String.eqb variable "f_tilde" then Some f_tilde_bnds
  else if String.eqb variable "d" then Some (d_bnds d_bnd)
  else None.

(** ** objectives *)

Definition _obj_weights (weights : list V) (model : Model) : option V :=
  foldM (λ f_sum i,
           if i mod 4 =? 1 then
             x ← var_get (model_f model) i;
             w ← weights !! 2%nat;
             Some (vadd f_sum (vmul (vmul x x) w))
           else if i mod 4 =? 0 then
             x ← var_get (model_f model) i;
             w ← weights !! 1%nat;
             Some (vadd f_sum (vmul (vmul x x) w))
           else Some f_sum)
        vzero (model_f_id model).

Definition obj_rbe (weights : list V) (model : Model) : option V :=
  _obj_weights weights model.

Definition obj_cra (model : Model) : option V :=
  alpha_sum ← dot_product (model_alpha model) (model_alpha model);
  f_sum ← foldM (λ f_sum i,
                   if i mod 3 =? 0 then
                     x ← var_get (model_f model) i;
                     Some (vadd f_sum (vmul x x))
                   else Some f_sum)
                vzero (model_f_id model);
  Some (vadd f_sum alpha_sum).

Definition obj_cra_penalty (weights : list V) (model : Model) : option V :=
  a ← dot_product (model_alpha model) (model_alpha model);
  w ← weights !! 0%nat;
  let alpha_sum := vmul a w in
  f_sum ← _obj_weights weights model;
  Some (vadd alpha_sum f_sum).

Definition objectives (solver : string) (weights : list V)
  : option (Model → option V) :=
  if String.eqb solver "cra" then Some obj_cra
  else if String.eqb solver "cra_penalty" then Some (obj_cra_penalty weights)
  else if String.eqb solver "rbe" then Some (obj_rbe weights)
  else None.

(** ** constraints

    A pyomo rule returns a 2-tuple (an equality between its components) or a
    3-tuple (lower bound, body, upper bound; None for a missing bound). *)

Inductive con_result :=
  | CEq (lhs rhs : V)
  | CRange (lo : option V) (body : V) (hi : option V).

Inductive con_fn :=
  | Con1 (rule : Model → Z → option con_result)
  | Con2 (rule : Model → Z → Z → option con_result).

Definition contact_con (eps : V) (model : Model) (i : Z) : option con_result :=
  dn ← var_get (model_d model) (i * 3);
  fn ← var_get (model_f model) (i * 3);
  Some (CEq (vmul (vadd dn eps) fn) vzero).

Definition penalty_contact_con (eps : V) (model : Model) (i : Z)
  : option con_result :=
  dn ← var_get (model_d model) (i * 3);
  fn ← var_get (model_f model) (i * 4);
  Some (CEq (vmul (vadd dn eps) fn) vzero).

Definition fn_np_con (model : Model) (i : Z) : option con_result :=
  a ← var_get (model_f model) (i * 4);
  b ← var_get (model_f model) (i * 4 + 1);
  Some (CEq (vmul a b) vzero).

Definition no_penetration_con (eps : V) (m : Model) (t : Z)
  : option con_result :=
  dn ← var_get (model_d m) (t * 3);
  Some (CRange (Some vzero) (vadd dn eps) None).

Definition ft_dt_con (model : Model) (i xyz : Z) : option con_result :=
  d1 ← py_getitem (model_displs model) (i * 3 + 1);
  d2 ← py_getitem (model_displs model) (i * 3 + 2);
  d_t ← vec_add d1 d2;
  f1 ← py_getitem (model_forces model) (i * 3 + 1);
  f2 ← py_getitem (model_forces model) (i * 3 + 2);
  f_t ← vec_add f1 f2;
  l ← py_getitem f_t xyz;
  r ← py_getitem d_t xyz;
  al ← var_get (model_alpha model) i;
  Some (CEq l (vmul (vneg r) al)).

Definition penalty_ft_dt_con (model : Model) (i xyz : Z) : option con_result :=
  d1 ← py_getitem (model_displs model) (i * 3 + 1);
  d2 ← py_getitem (model_displs model) (i * 3 + 2);
  d_t ← vec_add d1 d2;
  f1 ← py_getitem (model_forces model) (i * 4 + 2);
  f2 ← py_getitem (model_forces model) (i * 4 + 3);
  f_t ← vec_add f1 f2;
  l ← py_getitem f_t xyz;
  r ← py_getitem d_t xyz;
  al ← var_get (model_alpha model) i;
  Some (CEq l (vmul (vneg r) al)).

Definition constraints (name : string) (eps : V) : option con_fn :=
  if String.eqb name "contact" then Some (Con1 (contact_con eps))
  else if String.eqb name "penalty_contact" then Some (Con1 (penalty_contact_con eps))
  else if String.eqb name "fn_np" then Some (Con1 fn_np_con)
  else if String.eqb name "no_penetration" then Some (Con1 (no_penetration_con eps))
  else if String.eqb name "ft_dt" then Some (Con2 ft_dt_con)
  else if String.eqb name "penalty_ft_dt" then Some (Con2 penalty_ft_dt_con)
  else None.

End Formulas.

Arguments Var V : clear implicits.
Arguments Model V : clear implicits.
Arguments bound V : clear implicits.
Arguments con_result V : clear implicits.
Arguments con_fn V : clear implicits.

(** ** The assembly

    The graph lists its nodes in iteration order; every node carries its key,
    the attributes this module reads or writes ('is_support', a Boolean flag,
    and 'displacement'), the volume of its block and its remaining
    attributes.  The graph keeps its nodes in a dictionary, so the keys of a
    graph are distinct; the theorems take this as [NoDup].  An edge carries
    the list of its interfaces, held by reference into the store of
    interface objects. *)

Inductive pyobj :=
  | PyNone
  | PyBool (b : bool)
  | PyInt (z : Z)
  | PyStr (s : string).

Abbreviation loc := nat (only parsing).

Section Assembly.
Context {V : Type} `{Num V} {K : Type} `{Countable K}.

Record Force := {
  c_np : V;
  c_nn : V;
  c_u : V;
  c_v : V
}.

Record Interface := {
  points : list (list V);
  forces : option (list Force);
  interface_attrs : gmap string pyobj
}.

Record Node := {
  node_key : K;
  is_support : bool;
  displacement : option (list V);
  block_volume : V;                (* assembly.node_block(key).volume() *)
  node_attrs : gmap string pyobj
}.

Record Edge := {
  edge_u : K;
  edge_v : K;
  edge_interfaces : list loc
}.

Record Assembly := {
  graph_nodes : list Node;
  graph_edges : list Edge;
  store : gmap loc Interface
}.

Definition Matrix : Type := list (list V).

(** [MatrixConstraint(A.data, A.indices, A.indptr, lb, ub, x)] *)
Record MatrixConstraint := {
  mc_A : Matrix;
  mc_lb : list (option V);
  mc_ub : list (option V);
  mc_x : list Z
}.

Definition number_of_nodes (assembly : Assembly) : nat :=
  length (graph_nodes assembly).

(** [assembly.graph.nodes()] *)
Definition nodes (assembly : Assembly) : list K :=
  node_key <$> graph_nodes assembly.

Definition enumerate {A : Type} (l : list A) : list (nat * A) :=
  zip (seq 0 (length l)) l.

(** [{key: index for index, key in enumerate(assembly.graph.nodes())}] *)
Definition key_index_of (keys : list K) : gmap K nat :=
  foldl (λ m p, <[p.2 := p.1]> m) ∅ (enumerate keys).

(** [assembly.graph.nodes_where({'is_support': True})] *)
Definition nodes_where_is_support (assembly : Assembly) : list K :=
  node_key <$> filter (λ nd, is_support nd = true) (graph_nodes assembly).

(** Lookup of a node's data by key, as the graph's accessors do. *)
Definition find_node (nds : list Node) (key : K) : option Node :=
  snd <$> list_find (λ nd, node_key nd = key) nds.

(** [[index * 6 + i for index in free for i in range(6)]] *)
Definition free_rows (free : list nat) : list nat :=
  index ← free; i ← seq 0 6; [(index * 6 + i)%nat].

(** *** equilibrium_setup

    [set_order] is the order in which Python lists the members of a set;
    [make_aeq] is the helper of cra_helper that builds the raw matrix. *)
Definition equilibrium_setup
    (set_order : gset nat → list nat)
    (make_aeq : Assembly → Matrix * nat)
    (assembly : Assembly) : option (Matrix * nat * list nat) :=
  let num_nodes := number_of_nodes assembly in
  let key_index := key_index_of (nodes assembly) in
  let fixed := nodes_where_is_support assembly in
  fixed ← mapM (λ key, key_index !! key) fixed;
  let free := set_order (list_to_set (seq 0 num_nodes) ∖ list_to_set fixed) in
  let '(aeq, vcount) := make_aeq assembly in
  aeq ← mapM (λ r, aeq !! r) (free_rows free);
  Some (aeq, vcount, free).

(** *** static_equilibrium_constraints *)
Definition static_equilibrium_constraints
    (make_afr : nat → nat → V → Matrix)
    (model : Model V) (assembly : Assembly) (aeq : Matrix) (vcount : nat)
    (free : list nat) (density mu : V)
  : option (MatrixConstraint * MatrixConstraint) :=
  let num_nodes := number_of_nodes assembly in
  let key_index := key_index_of (nodes assembly) in
  let p := replicate num_nodes (replicate 6 vzero) in
  p ← foldM (λ p node,
               block ← find_node (graph_nodes assembly) node;
               index ← key_index !! node;
               row ← p !! index;
               Some (<[index := <[2%nat := vmul (vneg (block_volume block)) density]> row]> p))
            p (nodes assembly);
  p ← mapM (λ i, p !! i) free;
  let p := concat p in
  let afr := make_afr vcount 8%nat mu in
  let equilibrium_constraints :=
    {| mc_A := aeq; mc_lb := (λ x, Some (vneg x)) <$> p;
       mc_ub := (λ x, Some (vneg x)) <$> p; mc_x := model_array_f model |} in
  let friction_constraint :=
    {| mc_A := afr; mc_lb := replicate (length afr) None;
       mc_ub := replicate (length afr) (Some vzero);
       mc_x := model_array_f model |} in
  Some (equilibrium_constraints, friction_constraint).

(** *** pyomo_result_assembly *)

Definition set_forces (fs : list Force) (itf : Interface) : Interface :=
  {| points := points itf; forces := Some fs;
     interface_attrs := interface_attrs itf |}.

Definition set_displacement (d : list V) (nd : Node) : Node :=
  {| node_key := node_key nd; is_support := is_support nd;
     displacement := Some d; block_volume := block_volume nd;
     node_attrs := node_attrs nd |}.

(** [graph.node_attribute(key, 'displacement', d)] *)
Definition node_attribute_set_displacement
    (nds : list Node) (key : K) (d : list V) : list Node :=
  (λ nd, if decide (node_key nd = key) then set_displacement d nd else nd)
    <$> nds.

(** The dictionary appended for contact point [i]. *)
Definition read_force (shift : Z) (f : Var V) (offset : Z) (i : Z)
  : option Force :=
  np ← var_get f (offset + shift * i + 0)%Z;
  nn ← (if (shift =? 4)%Z then var_get f (offset + shift * i + 1)%Z
        else Some vzero);
  u ← var_get f (offset + shift * i + 1 + (if (shift =? 4)%Z then 1 else 0))%Z;
  v ← var_get f (offset + shift * i + 2 + (if (shift =? 4)%Z then 1 else 0))%Z;
  Some {| c_np := np; c_nn := nn; c_u := u; c_v := v |}.

(** The stride of the force vector: 4 by default, 3 when not [penalty]. *)
Definition shift_of (penalty : bool) : Z := if negb penalty then 3%Z else 4%Z.

(** Body of the loop over the interfaces of an edge. *)
Definition save_interface (shift : Z) (f : Var V)
    (st : Z * gmap loc Interface) (interface : loc)
  : option (Z * gmap loc Interface) :=
  itf ← st.2 !! interface;
  let n := length (points itf) in
  fs ← mapM (λ i, read_force shift f st.1 (Z.of_nat i)) (seq 0 n);
  Some ((st.1 + shift * Z.of_nat n)%Z, <[interface := set_forces fs itf]> st.2).

Definition save_forces (shift : Z) (f : Var V) (edges : list Edge)
    (st : Z * gmap loc Interface) : option (Z * gmap loc Interface) :=
  foldM (λ st edge, foldM (save_interface shift f) st (edge_interfaces edge))
        st edges.

(** Body of the loop over the nodes, for the displacements. *)
Definition save_displacement (q : list V) (st : nat * list Node) (node : K)
  : option (nat * list Node) :=
  nd ← find_node st.2 node;
  if is_support nd then Some st
  else Some ((st.1 + 6)%nat,
             node_attribute_set_displacement st.2 node
               (py_slice q st.1 (st.1 + 6)%nat)).

Definition pyomo_result_assembly
    (model : Model V) (assembly : Assembly) (penalty verbose : bool)
  : option Assembly :=
  let shift := shift_of penalty in
  st ← save_forces shift (model_f model) (graph_edges assembly)
         (0%Z, store assembly);
  nds ← match model_q model with
        | Some mq =>
            q ← mapM (λ i, var_get mq (Z.of_nat i)) (seq 0 (var_len mq));
            st ← foldM (save_displacement q) (0%nat, graph_nodes assembly)
                   (nodes assembly);
            Some st.2
        | None => Some (graph_nodes assembly)
        end;
  Some {| graph_nodes := nds; graph_edges := graph_edges assembly;
          store := st.2 |}.

End Assembly.

Arguments Force V : clear implicits.
Arguments Interface V : clear implicits.
Arguments Node V K : clear implicits.
Arguments Edge K : clear implicits.
Arguments Assembly V K : clear implicits.
Arguments Matrix V : clear implicits.
Arguments MatrixConstraint V : clear implicits.

(** ** Reference formula for the CRA objective

    The value the documentation gives for the 'cra' objective: the sum of
    the squares of the normal forces (the members of [f] whose index is a
    multiple of 3, in the order of [f_id]) plus the dot product of [alpha]
    with itself.  No weight enters it. *)
Definition cra_objective_value {V : Type} `{Num V} (model : Model V)
  : option V :=
  fn ← mapM (var_get (model_f model))
         (filter (λ i, (i mod 3 = 0)%Z) (model_f_id model));
  al ← mapM (var_get (model_alpha model)) ((model_alpha model).*1);
  Some (vadd (foldl vadd vzero ((λ x, vmul x x) <$> fn))
             (foldl vadd vzero ((λ x, vmul x x) <$> al))).

(** ** Reference value of the load vector

    The vector stacked by [static_equilibrium_constraints]: for each index of
    the free list, in the order of the list, the six components
    (0, 0, -volume * density, 0, 0, 0) of the node at that index. *)
Definition weight_row {V : Type} `{Num V} {K : Type}
    (density : V) (nd : Node V K) : list V :=
  [vzero; vzero; vmul (vneg (block_volume nd)) density; vzero; vzero; vzero].

Definition stacked_weights {V : Type} `{Num V} {K : Type}
    (assembly : Assembly V K) (free : list nat) (density : V) : list V :=
  index ← free;
  match graph_nodes assembly !! index with
  | Some nd => weight_row density nd
  | None => []
  end.

(** ** Vocabulary for the write-back

    The interfaces in the order in which [pyomo_result_assembly] visits
    them, the number of contact points of an interface of the store, and the
    node list after a positional write-back of the slices of [q]. *)
Definition interfaces_of {K : Type} (edges : list (Edge K)) : list loc :=
  edge ← edges; edge_interfaces edge.

Definition npoints {V : Type} (h : gmap loc (Interface V)) (l : loc) : nat :=
  from_option (λ itf, length (points itf)) 0%nat (h !! l).

Definition points_before {V : Type} (h : gmap loc (Interface V))
    (ls : list loc) (k : nat) : nat :=
  sum_list (npoints h <$> take k ls).

Definition free_nodes_before {V K : Type} (nds : list (Node V K)) (j : nat)
  : nat :=
  length (filter (λ nd, is_support nd = false) (take j nds)).

Fixpoint displaced {V K : Type} (q : list V) (offset : nat)
    (nds : list (Node V K)) : list (Node V K) :=
  match nds with
  | [] => []
  | nd :: r =>
      if is_support nd then nd :: displaced q offset r
      else set_displacement (py_slice q offset (offset + 6)%nat) nd
             :: displaced q (offset + 6)%nat r
  end.

(** The inputs on which [pyomo_result_assembly] raises no exception: node
    keys are distinct, every interface of an edge is an object of the store,
    [model.f] has a member at each index below [shift] times the number of
    contact points, and [model.q], when present, is indexed by
    0 .. len(q) - 1. *)
Definition result_inputs_ok {V : Type} `{Num V} {K : Type}
    (model : Model V) (assembly : Assembly V K) (penalty : bool) : Prop :=
  NoDup (node_key <$> graph_nodes assembly) ∧
  (∀ l, l ∈ interfaces_of (graph_edges assembly) →
        is_Some (store assembly !! l)) ∧
  (∀ j : Z,
     (0 ≤ j < shift_of penalty
              * Z.of_nat (sum_list (npoints (store assembly)
                                      <$> interfaces_of (graph_edges assembly))))%Z →
     is_Some (var_get (model_f model) j)) ∧
  (∀ mq, model_q model = Some mq →
         ∀ i, (i < var_len mq)%nat → is_Some (var_get mq (Z.of_nat i))).

(** The displacement lists of the nodes that are not supports, one after
    the other in node order (a node without the attribute adds nothing). *)
Definition free_displacements {V K : Type} (nds : list (Node V K)) : list V :=
  nd ← filter (λ nd, is_support nd = false) nds;
  default [] (displacement nd).

(** ** A small assembly over integer values

    Three blocks in a row, the first a support; two edges, one with an
    interface of two contact points and one with an interface of one. *)
Module Demo.

Definition node (key : nat) (support : bool) (volume : Z) : Node Z nat :=
  {| node_key := key; is_support := support; displacement := None;
     block_volume := volume; node_attrs := ∅ |}.

Definition interface (n : nat) : Interface Z :=
  {| points := replicate n [0; 0; 0]%Z; forces := None;
     interface_attrs := ∅ |}.

Definition assembly : Assembly Z nat :=
  {| graph_nodes := [node 10 true 2; node 11 false 3; node 12 false 5];
     graph_edges := [ {| edge_u := 10%nat; edge_v := 11%nat;
                         edge_interfaces := [0%nat] |};
                      {| edge_u := 11%nat; edge_v := 12%nat;
                         edge_interfaces := [1%nat] |} ];
     store := <[0%nat := interface 2]> (<[1%nat := interface 1]> ∅) |}.

(** The members of a set of small integers in increasing order, as CPython
    lists them when the set was built from a range. *)
Definition set_order (s : gset nat) : list nat := merge_sort (≤)%nat (elements s).

(** A raw matrix with six rows per node, each row tagged by its number. *)
Definition make_aeq (a : Assembly Z nat) : Matrix Z * nat :=
  ((λ r, [Z.of_nat r]) <$> seq 0 (6 * number_of_nodes a), 3%nat).

(** A friction matrix with [fcon_number] rows per contact point. *)
Definition make_afr (vcount fcon_number : nat) (mu : Z) : Matrix Z :=
  replicate (vcount * fcon_number) [mu].


Definition var_of (base : Z) (n : nat) : Var Z :=
  (λ i, (Z.of_nat i, base + Z.of_nat i)%Z) <$> seq 0 n.

(** A solved model with [n] force values 100, 101, ... and, if [with_q],
    twelve displacement values 1000, 1001, ... *)
Definition model (n : nat) (with_q : bool) : Model Z :=
  {| model_f := var_of 100 n; model_d := []; model_alpha := [];
     model_f_id := Z.of_nat <$> seq 0 n;
     model_q := if with_q then Some (var_of 1000 12) else None;
     model_displs := []; model_forces := [];
     model_array_f := Z.of_nat <$> seq 0 n |}.

End Demo.

(** ** Variants of the small assembly *)
Module Variants.

(** Only supports. *)
Definition all_supports : Assembly Z nat :=
  {| graph_nodes := [Demo.node 10 true 2; Demo.node 11 true 3];
     graph_edges := []; store := ∅ |}.

(** The small assembly with a heavier support. *)
Definition heavy_support : Assembly Z nat :=
  {| graph_nodes := [Demo.node 10 true 40; Demo.node 11 false 3;
                     Demo.node 12 false 5];
     graph_edges := graph_edges Demo.assembly;
     store := store Demo.assembly |}.

(** A raw matrix that stops after the rows of the second node. *)
Definition short_aeq (a : Assembly Z nat) : Matrix Z * nat :=
  ((λ r, [Z.of_nat r]) <$> seq 0 12, 3%nat).

(** A solved model whose [q] is indexed from 1. *)
Definition model_q_from_1 : Model Z :=
  {| model_f := Demo.var_of 100 9; model_d := []; model_alpha := [];
     model_f_id := Z.of_nat <$> seq 0 9;
     model_q := Some [(1, 1000); (2, 1001)]%Z;
     model_displs := []; model_forces := [];
     model_array_f := Z.of_nat <$> seq 0 9 |}.

(** A solved model whose [q] has eight values only. *)
Definition model_short_q : Model Z :=
  {| model_f := Demo.var_of 100 9; model_d := []; model_alpha := [];
     model_f_id := Z.of_nat <$> seq 0 9;
     model_q := Some (Demo.var_of 1000 8);
     model_displs := []; model_forces := [];
     model_array_f := Z.of_nat <$> seq 0 9 |}.

End Variants.

(** * Properties of the formula selectors *)

Section FormulaFacts.
Context {V : Type} `{Num V}.
Local Open Scope Z_scope.

Lemma foldM_sum {A : Type} (g : A → option V) (h : V → V) (l : list A) (a : V) :
  foldM (λ acc i, x ← g i; Some (vadd acc (h x))) a l
  = xs ← mapM g l; Some (foldl vadd a (h <$> xs)).
Proof.
  revert a. induction l as [|i l IH]; intros a; simpl; [done|].
  destruct (g i) as [x|]; simpl; [|done].
  rewrite IH. by destruct (mapM g l).
Qed.

Lemma foldM_filter {A : Type} (P : A → bool) (step : V → A → option V)
    (l : list A) (a : V) :
  foldM (λ acc i, if P i then step acc i else Some acc) a l
  = foldM step a (filter (λ i, P i = true) l).
Proof.
  revert a. induction l as [|i l IH]; intros a; simpl; [done|].
  rewrite filter_cons. destruct (P i) eqn:HP.
  - rewrite decide_True by done. simpl. destruct (step a i); [apply IH | done].
  - rewrite decide_False by congruence. apply IH.
Qed.

Lemma dot_product_self (a : Var V) :
  dot_product a a
  = xs ← mapM (var_get a) (a.*1);
    Some (foldl vadd vzero ((λ x, vmul x x) <$> xs)).
Proof.
  unfold dot_product. rewrite <- (foldM_sum (var_get a) (λ x, vmul x x)).
  generalize (@vzero V _). generalize (a.*1).
  induction l as [|i l IH]; intros v; simpl; [done|].
  destruct (var_get a i); simpl; [apply IH | done].
Qed.

Lemma obj_cra_value (model : Model V) :
  obj_cra model = cra_objective_value model.
Proof.
  unfold obj_cra, cra_objective_value.
  rewrite dot_product_self.
  rewrite (foldM_filter (λ i, i mod 3 =? 0)
             (λ acc i, x ← var_get (model_f model) i; Some (vadd acc (vmul x x)))).
  rewrite (foldM_sum (var_get (model_f model)) (λ x, vmul x x)).
  assert (Hf : filter (λ i, (i mod 3 =? 0) = true) (model_f_id model)
             = filter (λ i, i mod 3 = 0) (model_f_id model)).
  { apply list_filter_iff. intros i. apply Z.eqb_eq. }
  rewrite Hf.
  destruct (mapM (var_get (model_alpha model)) ((model_alpha model).*1));
    destruct (mapM (var_get (model_f model)) _); done.
Qed.

(** Case analysis on the first string comparison of a selector. *)
Ltac string_case :=
  match goal with
  | |- context [String.eqb ?a ?b] =>
      destruct (String.eqb_spec a b) as [-> | _]; [exfalso |]
  end.

(** C6. [bounds('f_tilde')] sends an index whose residue modulo 4 is 0 or 1
    to the non-negative reals and every other index to the reals;
    [bounds('f')] sends an index that is a multiple of 3 to the non-negative
    reals and every other index to the reals. *)
Theorem bounds_by_residue (d_bnd : V) :
  (∃ g, bounds "f_tilde" d_bnd = Some g ∧
        ∀ (model : Model V) (i : Z),
          g model i = Some (BDomain (if decide (i mod 4 = 0 ∨ i mod 4 = 1)
                                     then NonNegativeReals else Reals))) ∧
  (∃ g, bounds "f" d_bnd = Some g ∧
        ∀ (model : Model V) (i : Z),
          g model i = Some (BDomain (if decide (i mod 3 = 0)
                                     then NonNegativeReals else Reals))).
Proof.
  split; eexists; (split; [reflexivity|]); intros model i.
  - unfold f_tilde_bnds. case_decide as Hi.
    + destruct Hi as [-> | ->]; reflexivity.
    + destruct (Z.eqb_spec (i mod 4) 0); [tauto|].
      destruct (Z.eqb_spec (i mod 4) 1); [tauto|]. reflexivity.
  - unfold f_bnds. case_decide as Hi.
    + by rewrite Hi.
    + by destruct (Z.eqb_spec (i mod 3) 0).
Qed.

(** C8. A selector outside the documented options makes each of the four
    formula-selection functions return None. *)
Theorem unknown_selector_returns_None
    (variable bvariable solver name : string) (d_bnd eps : V) (weights : list V) :
  variable ≠ "f_tilde" →
  bvariable ∉ ["f"; "f_tilde"; "d"] →
  solver ∉ ["cra"; "cra_penalty"; "rbe"] →
  name ∉ ["contact"; "penalty_contact"; "fn_np"; "no_penetration"; "ft_dt";
          "penalty_ft_dt"] →
  initialisations (V:=V) variable = None ∧
  bounds bvariable d_bnd = None ∧
  objectives solver weights = None ∧
  constraints name eps = None.
Proof.
  intros Hv Hb Hs Hn.
  repeat split.
  - unfold initialisations. by apply String.eqb_neq in Hv as ->.
  - unfold bounds. repeat string_case; [set_solver .. | reflexivity].
  - unfold objectives. repeat string_case; [set_solver .. | reflexivity].
  - unfold constraints. repeat string_case; [set_solver .. | reflexivity].
Qed.

End FormulaFacts.

Lemma unknown_selector_returns_None_witness :
  initialisations (V:=Z) "f" = None ∧
  bounds "q" 1%Z = None ∧
  objectives "lp" [1%Z; 1%Z; 1%Z] = None ∧
  constraints "friction" 0%Z = None.
Proof.
  apply (unknown_selector_returns_None (V:=Z) "f" "q" "lp" "friction"
           1%Z 0%Z [1%Z; 1%Z; 1%Z]).
  - discriminate.
  - apply (bool_decide_unpack _). by vm_compute.
  - apply (bool_decide_unpack _). by vm_compute.
  - apply (bool_decide_unpack _). by vm_compute.
Defined.

(** C9. The 'cra' objective does not depend on the weights: for any two
    weight tuples the selected functions agree on every model, and their
    value is the unweighted sum of squares of the normal forces plus the dot
    product of alpha with itself.  The 'cra_penalty' and 'rbe' objectives do
    apply the weights: on some model, two weight tuples give two values. *)
Theorem cra_objective_ignores_weights :
  (∀ (V : Type) (HV : Num V) (w1 w2 : list V),
     ∃ g1 g2, objectives "cra" w1 = Some g1 ∧
              objectives "cra" w2 = Some g2 ∧
              ∀ model : Model V,
                g1 model = g2 model ∧ g1 model = cra_objective_value model) ∧
  (∃ (model : Model Z) (w1 w2 : list Z) g1 g2 h1 h2,
     objectives "cra_penalty" w1 = Some g1 ∧
     objectives "cra_penalty" w2 = Some g2 ∧
     g1 model ≠ g2 model ∧
     objectives "rbe" w1 = Some h1 ∧
     objectives "rbe" w2 = Some h2 ∧
     h1 model ≠ h2 model).
Proof.
  split.
  - intros V HV w1 w2. exists obj_cra, obj_cra.
    split; [reflexivity|]. split; [reflexivity|].
    intros model. split; [reflexivity | apply obj_cra_value].
  - exists {| model_f := [(0, 2); (1, 3); (2, 5)]%Z; model_d := [];
              model_alpha := [(0, 1)]%Z; model_f_id := [0; 1; 2]%Z;
              model_q := None; model_displs := []; model_forces := [];
              model_array_f := [0; 1; 2]%Z |},
           [1; 1; 1]%Z, [1; 1; 7]%Z.
    do 4 eexists.
    repeat split; try reflexivity; vm_compute; discriminate.
Qed.

(** * Properties of the assembly routines *)

Section AssemblyFacts.
Context {V : Type} `{Num V} {K : Type} `{Countable K}.

Implicit Types (assembly : Assembly V K) (nd : Node V K) (keys : list K).

(** ** The key-to-index dictionary *)

Lemma key_index_fold keys (s : nat) (acc : gmap K nat) :
  NoDup keys →
  let r := foldl (λ m p, <[p.2 := p.1]> m) acc (zip (seq s (length keys)) keys) in
  (∀ i k, keys !! i = Some k → r !! k = Some (s + i)%nat) ∧
  (∀ k, k ∉ keys → r !! k = acc !! k).
Proof.
  revert s acc. induction keys as [|k0 keys IH]; intros s acc Hnd; simpl.
  - split; [intros i k Hi; by rewrite lookup_nil in Hi | done].
  - apply NoDup_cons in Hnd as [Hk0 Hnd].
    destruct (IH (S s) (<[k0 := s]> acc) Hnd) as [IH1 IH2].
    split.
    + intros [|i] k Hi; simpl in Hi.
      * injection Hi as <-. rewrite IH2 by done.
        rewrite lookup_insert_eq. f_equal. lia.
      * rewrite (IH1 i k Hi). f_equal. lia.
    + intros k Hk. apply not_elem_of_cons in Hk as [Hne Hk].
      rewrite IH2 by done. by rewrite lookup_insert_ne.
Qed.

Lemma key_index_lookup assembly (i : nat) nd :
  NoDup (nodes assembly) →
  graph_nodes assembly !! i = Some nd →
  key_index_of (nodes assembly) !! node_key nd = Some i.
Proof.
  intros Hnd Hi. unfold key_index_of, enumerate.
  destruct (key_index_fold (nodes assembly) 0 ∅ Hnd) as [Hl _].
  apply (Hl i). unfold nodes. by rewrite list_lookup_fmap, Hi.
Qed.

(** ** The indices of the supports *)

Lemma fixed_indices assembly :
  NoDup (nodes assembly) →
  ∃ fixed : list nat,
    mapM (λ key, key_index_of (nodes assembly) !! key)
         (nodes_where_is_support assembly) = Some fixed ∧
    ∀ i, i ∈ fixed ↔
         ∃ nd, graph_nodes assembly !! i = Some nd ∧ is_support nd = true.
Proof.
  intros Hnd.
  destruct (mapM (λ key, key_index_of (nodes assembly) !! key)
              (nodes_where_is_support assembly)) as [fixed|] eqn:Hm.
  - exists fixed. split; [done|].
    apply mapM_Some_1 in Hm. intros i. split.
    + intros [j Hj]%list_elem_of_lookup.
      destruct (Forall2_lookup_r _ _ _ _ _ Hm Hj) as (key & Hkey & Hki).
      assert (Hin : key ∈ nodes_where_is_support assembly)
        by (apply list_elem_of_lookup; eauto).
      apply list_elem_of_fmap in Hin as (nd & -> & Hin).
      apply list_elem_of_filter in Hin as [Hs Hin].
      apply list_elem_of_lookup in Hin as [i' Hi'].
      rewrite (key_index_lookup _ _ _ Hnd Hi') in Hki.
      injection Hki as <-. eauto.
    + intros (nd & Hi & Hs).
      assert (Hin : node_key nd ∈ nodes_where_is_support assembly).
      { apply list_elem_of_fmap. exists nd. split; [done|].
        apply list_elem_of_filter. split; [done|].
        apply list_elem_of_lookup; eauto. }
      apply list_elem_of_lookup in Hin as [j Hj].
      destruct (Forall2_lookup_l _ _ _ _ _ Hm Hj) as (i' & Hi' & Hki).
      rewrite (key_index_lookup _ _ _ Hnd Hi) in Hki.
      injection Hki as <-. apply list_elem_of_lookup; eauto.
  - exfalso. apply mapM_None_1, Exists_exists in Hm as (key & Hin & Hnone).
    apply list_elem_of_fmap in Hin as (nd & -> & Hin).
    apply list_elem_of_filter in Hin as [_ Hin].
    apply list_elem_of_lookup in Hin as [i Hi].
    by rewrite (key_index_lookup _ _ _ Hnd Hi) in Hnone.
Qed.

(** ** The rows kept for a list of free indices *)

Lemma elem_of_free_rows (free : list nat) (r : nat) :
  r ∈ free_rows free ↔
  ∃ index i, index ∈ free ∧ (i < 6)%nat ∧ r = (6 * index + i)%nat.
Proof.
  unfold free_rows. rewrite list_elem_of_bind. split.
  - intros (index & Hr & Hin).
    apply list_elem_of_bind in Hr as (i & Hr & Hi).
    apply list_elem_of_singleton in Hr. apply elem_of_seq in Hi.
    exists index, i. split; [done|]. split; lia.
  - intros (index & i & Hin & Hi & ->). exists index. split; [|done].
    apply list_elem_of_bind. exists i. split.
    + apply list_elem_of_singleton. lia.
    + apply elem_of_seq. lia.
Qed.

Lemma NoDup_free_rows (free : list nat) : NoDup free → NoDup (free_rows free).
Proof.
  intros Hnd. unfold free_rows. apply NoDup_bind; [| |done].
  - intros x1 x2 y _ _ Hy1 Hy2.
    apply list_elem_of_bind in Hy1 as (i1 & Hy1 & Hi1).
    apply list_elem_of_bind in Hy2 as (i2 & Hy2 & Hi2).
    apply list_elem_of_singleton in Hy1, Hy2.
    apply elem_of_seq in Hi1, Hi2. lia.
  - intros x _. apply NoDup_bind; [| |apply NoDup_seq].
    + intros i1 i2 y _ _ Hy1 Hy2.
      apply list_elem_of_singleton in Hy1, Hy2. lia.
    + intros i _. apply NoDup_singleton.
Qed.

Lemma length_free_rows (free : list nat) :
  length (free_rows free) = (6 * length free)%nat.
Proof.
  unfold free_rows. induction free as [|x free IH]; [done|].
  rewrite bind_cons, length_app, IH. simpl. lia.
Qed.

(** C1. On a graph whose node keys are distinct and a raw matrix with six
    rows per node, [equilibrium_setup] returns the raw matrix restricted to
    the rows [6 * index + i] (i in 0..5) of the free indices.  The free list
    holds exactly the indices of the nodes that are not supports, each once,
    in whatever order the set is listed; no row of a support is kept. *)
Theorem equilibrium_setup_free_rows
    (set_order : gset nat → list nat)
    (make_aeq : Assembly V K → Matrix V * nat) assembly :
  (∀ s, set_order s ≡ₚ elements s) →
  NoDup (nodes assembly) →
  (6 * number_of_nodes assembly ≤ length (make_aeq assembly).1)%nat →
  ∃ aeq free,
    equilibrium_setup set_order make_aeq assembly
      = Some (aeq, (make_aeq assembly).2, free) ∧
    NoDup free ∧
    (∀ index, index ∈ free ↔
       ∃ nd, graph_nodes assembly !! index = Some nd ∧ is_support nd = false) ∧
    Forall2 (λ row r, (make_aeq assembly).1 !! r = Some row)
            aeq (free_rows free) ∧
    length aeq = (6 * length free)%nat ∧
    NoDup (free_rows free) ∧
    (∀ r, r ∈ free_rows free ↔
       ∃ index i, index ∈ free ∧ (i < 6)%nat ∧ r = (6 * index + i)%nat) ∧
    (∀ index nd i, graph_nodes assembly !! index = Some nd →
       is_support nd = true → (i < 6)%nat →
       (6 * index + i)%nat ∉ free_rows free).
Proof.
  intros Hperm Hnd Hrows.
  destruct (fixed_indices assembly Hnd) as (fixed & Hfixed & Hfix).
  set (free := set_order (list_to_set (seq 0 (number_of_nodes assembly))
                            ∖ list_to_set fixed)).
  assert (Hfree_nd : NoDup free).
  { unfold free. rewrite Hperm. apply NoDup_elements. }
  assert (Hfree : ∀ index, index ∈ free ↔
            ∃ nd, graph_nodes assembly !! index = Some nd ∧ is_support nd = false).
  { intros index. unfold free. rewrite Hperm, elem_of_elements.
    rewrite elem_of_difference, !elem_of_list_to_set, elem_of_seq, Hfix.
    unfold number_of_nodes. split.
    - intros [[_ Hlt] Hns]. apply lookup_lt_is_Some_2 in Hlt as [nd Hi].
      exists nd. split; [done|]. destruct (is_support nd) eqn:Hs; [|done].
      exfalso. apply Hns. eauto.
    - intros (nd & Hi & Hs). split.
      + apply lookup_lt_Some in Hi. lia.
      + intros (nd' & Hi' & Hs'). congruence. }
  destruct (make_aeq assembly) as [raw vcount] eqn:Hraw. simpl in *.
  destruct (mapM (λ r, raw !! r) (free_rows free)) as [aeq|] eqn:Hm.
  - exists aeq, free. unfold equilibrium_setup. rewrite Hfixed. simpl.
    rewrite Hraw. fold free. rewrite Hm. simpl.
    pose proof (mapM_Some_1 _ _ _ Hm) as HF2.
    split; [done|]. split; [done|]. split; [done|].
    split; [by apply Forall2_flip|].
    split; [by rewrite <- (Forall2_length _ _ _ HF2), length_free_rows|].
    split; [by apply NoDup_free_rows|].
    split; [apply elem_of_free_rows|].
    intros index nd i Hi Hs Hlt Hin.
    apply elem_of_free_rows in Hin as (index' & i' & Hin & Hlt' & Heq).
    assert (index' = index) as -> by lia.
    apply Hfree in Hin as (nd' & Hi' & Hs'). congruence.
  - exfalso. apply mapM_None_1, Exists_exists in Hm as (r & Hin & Hnone).
    apply elem_of_free_rows in Hin as (index & i & Hin & Hlt & ->).
    apply Hfree in Hin as (nd & Hi & _). apply lookup_lt_Some in Hi.
    apply lookup_ge_None in Hnone. unfold number_of_nodes in Hrows. lia.
Qed.

(** ** The load vector *)

Lemma find_node_lookup (nds : list (Node V K)) (i : nat) nd :
  NoDup (node_key <$> nds) →
  nds !! i = Some nd →
  find_node nds (node_key nd) = Some nd.
Proof.
  intros Hnd Hi. unfold find_node.
  assert (Hf : list_find (λ nd', node_key nd' = node_key nd) nds = Some (i, nd)).
  { apply list_find_Some. split; [done|]. split; [done|].
    intros j y Hj Hlt Hk.
    assert (j = i); [|lia].
    eapply (NoDup_lookup _ j i (node_key nd) Hnd);
      rewrite list_lookup_fmap; [rewrite Hj; simpl; by f_equal | by rewrite Hi]. }
  by rewrite Hf.
Qed.

Lemma weight_loop assembly (density : V) (pre suf : list (Node V K)) :
  NoDup (nodes assembly) →
  graph_nodes assembly = pre ++ suf →
  foldM (λ p node,
           block ← find_node (graph_nodes assembly) node;
           index ← key_index_of (nodes assembly) !! node;
           row ← p !! index;
           Some (<[index := <[2%nat := vmul (vneg (block_volume block)) density]> row]> p))
        ((weight_row density <$> pre)
           ++ replicate (length suf) (replicate 6 vzero))
        (node_key <$> suf)
  = Some (weight_row density <$> graph_nodes assembly).
Proof.
  intros Hnd. revert pre. induction suf as [|nd suf IH]; intros pre Hsplit.
  - simpl. by rewrite Hsplit, !app_nil_r.
  - assert (Hi : graph_nodes assembly !! length pre = Some nd).
    { rewrite Hsplit. by rewrite list_lookup_middle. }
    cbn [fmap list_fmap foldM].
    rewrite (find_node_lookup _ _ _ Hnd Hi). simpl.
    rewrite (key_index_lookup _ _ _ Hnd Hi). simpl.
    assert (Hrow : ((weight_row density <$> pre)
                      ++ replicate (length (nd :: suf)) (replicate 6 vzero))
                     !! length pre = Some (replicate 6 vzero)).
    { rewrite lookup_app_r by (rewrite length_fmap; lia).
      rewrite length_fmap, Nat.sub_diag. done. }
    simpl in Hrow. rewrite Hrow. simpl.
    replace (<[length pre := _]> _)
      with ((weight_row density <$> (pre ++ [nd]))
              ++ replicate (length suf) (replicate 6 vzero)).
    + apply IH. by rewrite <- app_assoc.
    + rewrite fmap_app, <- app_assoc. simpl.
      rewrite insert_app_r_alt by (rewrite length_fmap; lia).
      by rewrite length_fmap, Nat.sub_diag.
Qed.

Lemma stacked_rows assembly (density : V) (free : list nat) :
  Forall (λ i, i < number_of_nodes assembly)%nat free →
  ∃ rows, mapM (λ i, (weight_row density <$> graph_nodes assembly) !! i) free
            = Some rows ∧
          concat rows = stacked_weights assembly free density.
Proof.
  induction 1 as [|i free Hi _ (rows & Hrows & Hcat)].
  - by exists [].
  - apply lookup_lt_is_Some_2 in Hi as [nd Hnd].
    exists (weight_row density nd :: rows). split.
    + cbn [mapM]. rewrite list_lookup_fmap, Hnd. simpl. by rewrite Hrows.
    + unfold stacked_weights in *. rewrite bind_cons, Hnd. simpl.
      by rewrite Hcat.
Qed.

Lemma static_equilibrium_constraints_value
    (make_afr : nat → nat → V → Matrix V) (model : Model V) assembly
    (aeq : Matrix V) (vcount : nat) (free : list nat) (density mu : V) :
  NoDup (nodes assembly) →
  Forall (λ i, i < number_of_nodes assembly)%nat free →
  static_equilibrium_constraints make_afr model assembly aeq vcount free
    density mu
  = Some ({| mc_A := aeq;
             mc_lb := (λ x, Some (vneg x)) <$> stacked_weights assembly free density;
             mc_ub := (λ x, Some (vneg x)) <$> stacked_weights assembly free density;
             mc_x := model_array_f model |},
          {| mc_A := make_afr vcount 8%nat mu;
             mc_lb := replicate (length (make_afr vcount 8%nat mu)) None;
             mc_ub := replicate (length (make_afr vcount 8%nat mu)) (Some vzero);
             mc_x := model_array_f model |}).
Proof.
  intros Hnd Hfree. unfold static_equilibrium_constraints.
  pose proof (weight_loop assembly density [] (graph_nodes assembly) Hnd eq_refl)
    as Hloop.
  match goal with
  | |- context [foldM ?body ?p0 (nodes assembly)] =>
      assert (Hp : foldM body p0 (nodes assembly)
                   = Some (weight_row density <$> graph_nodes assembly))
        by exact Hloop
  end.
  rewrite Hp. simpl.
  destruct (stacked_rows assembly density free Hfree) as (rows & Hrows & Hcat).
  rewrite Hrows. simpl. by rewrite Hcat.
Qed.



End AssemblyFacts.

(** * Properties of the write-back *)

Section ResultFacts.
Context {V : Type} `{Num V} {K : Type} `{Countable K}.

Implicit Types (h : gmap loc (Interface V)) (ls : list loc) (f : Var V).

Lemma sum_list_cons (x : nat) (l : list nat) :
  sum_list (x :: l) = (x + sum_list l)%nat.
Proof. reflexivity. Qed.

Lemma sum_list_nil : sum_list [] = 0%nat.
Proof. reflexivity. Qed.

Lemma foldM_app {S A : Type} (g : S → A → option S) (s : S) (l1 l2 : list A) :
  foldM g s (l1 ++ l2) = foldM g s l1 ≫= λ s', foldM g s' l2.
Proof.
  revert s. induction l1 as [|x l1 IH]; intros s; simpl; [done|].
  destruct (g s x); simpl; [apply IH | done].
Qed.

Lemma foldM_nested {S A B : Type} (g : S → B → option S) (inner : A → list B)
    (s : S) (l : list A) :
  foldM (λ st x, foldM g st (inner x)) s l = foldM g s (l ≫= inner).
Proof.
  revert s. induction l as [|x l IH]; intros s; [done|].
  rewrite bind_cons, foldM_app. simpl.
  destruct (foldM g s (inner x)); simpl; [apply IH | done].
Qed.

Lemma save_forces_visits (shift : Z) f (edges : list (Edge K))
    (st : Z * gmap loc (Interface V)) :
  save_forces shift f edges st
  = foldM (save_interface shift f) st (interfaces_of edges).
Proof. apply foldM_nested. Qed.

(** ** One interface *)

Lemma save_interface_Some (shift : Z) f (off off' : Z) h h' (l : loc) :
  save_interface shift f (off, h) l = Some (off', h') ↔
  ∃ itf fs,
    h !! l = Some itf ∧
    mapM (λ i, read_force shift f off (Z.of_nat i))
         (seq 0 (length (points itf))) = Some fs ∧
    off' = (off + shift * Z.of_nat (length (points itf)))%Z ∧
    h' = <[l := set_forces fs itf]> h.
Proof.
  unfold save_interface. simpl. split.
  - destruct (h !! l) as [itf|]; simpl; [|done].
    destruct (mapM _ _) as [fs|] eqn:Hfs; simpl; [|done].
    intros [= <- <-]. by exists itf, fs.
  - intros (itf & fs & -> & Hfs & -> & ->). simpl. by rewrite Hfs.
Qed.

Lemma npoints_insert h (l l' : loc) (itf : Interface V) (fs : list (Force V)) :
  h !! l = Some itf →
  npoints (<[l := set_forces fs itf]> h) l' = npoints h l'.
Proof.
  intros Hl. unfold npoints. destruct (decide (l = l')) as [<-|Hne].
  - by rewrite lookup_insert_eq, Hl.
  - by rewrite lookup_insert_ne.
Qed.

(** ** A run over a list of interfaces: offset, frame, preserved fields *)

Lemma save_run (shift : Z) f ls (off off' : Z) h h' :
  foldM (save_interface shift f) (off, h) ls = Some (off', h') →
  off' = (off + shift * Z.of_nat (sum_list (npoints h <$> ls)))%Z ∧
  (∀ l, l ∉ ls → h' !! l = h !! l) ∧
  (∀ l, npoints h' l = npoints h l) ∧
  (∀ l, points <$> h' !! l = points <$> h !! l) ∧
  (∀ l, interface_attrs <$> h' !! l = interface_attrs <$> h !! l).
Proof.
  revert off h. induction ls as [|l0 ls IH]; intros off h; cbn [foldM].
  - intros [= <- <-]. repeat split; try done.
    rewrite fmap_nil, sum_list_nil. lia.
  - destruct (save_interface shift f (off, h) l0) as [[off1 h1]|] eqn:Hstep;
      [|done].
    apply save_interface_Some in Hstep as (itf & fs & Hl0 & Hfs & -> & ->).
    intros (-> & Hframe & Hnp & Hpts & Hat)%IH.
    assert (Hsum : npoints (<[l0 := set_forces fs itf]> h) <$> ls
                   = npoints h <$> ls).
    { apply list_fmap_ext. intros _ l _. by apply npoints_insert. }
    repeat split.
    + rewrite Hsum.
      rewrite fmap_cons, sum_list_cons.
      assert (Hn : npoints h l0 = length (points itf))
        by (unfold npoints; by rewrite Hl0).
      rewrite Hn. lia.
    + intros l [Hne Hnin]%not_elem_of_cons.
      rewrite Hframe by done. by rewrite lookup_insert_ne.
    + intros l. rewrite Hnp. by apply npoints_insert.
    + intros l. rewrite Hpts. destruct (decide (l0 = l)) as [<-|Hne].
      * by rewrite lookup_insert_eq, Hl0.
      * by rewrite lookup_insert_ne.
    + intros l. rewrite Hat. destruct (decide (l0 = l)) as [<-|Hne].
      * by rewrite lookup_insert_eq, Hl0.
      * by rewrite lookup_insert_ne.
Qed.

(** ** The visit of the interface at position [k] *)

Lemma save_visit (shift : Z) f ls (off' : Z) h h' (k : nat) (l : loc) :
  foldM (save_interface shift f) (0%Z, h) ls = Some (off', h') →
  ls !! k = Some l →
  ∃ itf fs hk,
    h !! l = Some itf ∧
    mapM (λ i, read_force shift f (shift * Z.of_nat (points_before h ls k))
                 (Z.of_nat i))
         (seq 0 (length (points itf))) = Some fs ∧
    foldM (save_interface shift f) (0%Z, h) (take (S k) ls)
      = Some ((shift * Z.of_nat (points_before h ls (S k)))%Z, hk) ∧
    (forces <$> hk !! l) = Some (Some fs) ∧
    (l ∉ drop (S k) ls → h' !! l = hk !! l).
Proof.
  intros Hrun Hk.
  rewrite <- (take_drop_middle ls k l Hk), foldM_app in Hrun.
  destruct (foldM (save_interface shift f) (0%Z, h) (take k ls))
    as [[offk hm]|] eqn:Hpre; [|done].
  simpl in Hrun.
  destruct (save_interface shift f (offk, hm) l) as [[off1 hk]|] eqn:Hstep;
    [|done].
  destruct (save_run _ _ _ _ _ _ _ Hpre) as (-> & _ & Hnp & Hpts & _).
  apply save_interface_Some in Hstep as (itfm & fs & Hl & Hfs & -> & ->).
  apply save_run in Hrun as (_ & Hframe & _).
  pose proof (Hpts l) as Hp. rewrite Hl in Hp. simpl in Hp.
  destruct (h !! l) as [itf|] eqn:Hl0; [|done].
  injection Hp as Hp.
  exists itf, fs, (<[l := set_forces fs itfm]> hm).
  split; [done|]. rewrite <- Hp.
  split; [by rewrite Z.add_0_l in Hfs|].
  split; [|split; [by rewrite lookup_insert_eq | apply Hframe]].
  rewrite (take_S_r _ _ _ Hk), foldM_app, Hpre. simpl.
  assert (Hstep : save_interface shift f
                    ((0 + shift * Z.of_nat (sum_list (npoints h <$> take k ls)))%Z, hm) l
                  = Some ((0 + shift * Z.of_nat (sum_list (npoints h <$> take k ls))
                           + shift * Z.of_nat (length (points itfm)))%Z,
                          <[l := set_forces fs itfm]> hm)).
  { apply save_interface_Some. by exists itfm, fs. }
  rewrite Hstep. do 2 f_equal.
  unfold points_before. rewrite (take_S_r _ _ _ Hk), fmap_app, sum_list_with_app.
  assert (Hn : npoints h l = length (points itf))
    by (unfold npoints; by rewrite Hl0).
  rewrite fmap_cons, fmap_nil, sum_list_cons, sum_list_nil, Hn, Hp. lia.
Qed.

(** ** The indices read for one contact point *)

Lemma read_force_indices (penalty : bool) f (off i : Z) (fc : Force V) :
  read_force (shift_of penalty) f off i = Some fc →
  var_get f (off + shift_of penalty * i)%Z = Some (c_np fc) ∧
  if penalty
  then var_get f (off + shift_of penalty * i + 1)%Z = Some (c_nn fc) ∧
       var_get f (off + shift_of penalty * i + 2)%Z = Some (c_u fc) ∧
       var_get f (off + shift_of penalty * i + 3)%Z = Some (c_v fc)
  else c_nn fc = vzero ∧
       var_get f (off + shift_of penalty * i + 1)%Z = Some (c_u fc) ∧
       var_get f (off + shift_of penalty * i + 2)%Z = Some (c_v fc).
Proof.
  unfold read_force.
  destruct penalty; cbn [shift_of negb Z.eqb Pos.eqb];
    rewrite !Z.add_0_r.
  - replace (off + 4 * i + 1 + 1)%Z with (off + 4 * i + 2)%Z by lia.
    replace (off + 4 * i + 2 + 1)%Z with (off + 4 * i + 3)%Z by lia.
    destruct (var_get f (off + 4 * i)%Z) as [np|]; simpl; [|done].
    destruct (var_get f (off + 4 * i + 1)%Z) as [nn|]; simpl; [|done].
    destruct (var_get f (off + 4 * i + 2)%Z) as [u|]; simpl; [|done].
    destruct (var_get f (off + 4 * i + 3)%Z) as [v|]; simpl; [|done].
    by intros [= <-].
  - destruct (var_get f (off + 3 * i)%Z) as [np|]; simpl; [|done].
    destruct (var_get f (off + 3 * i + 1)%Z) as [u|]; simpl; [|done].
    destruct (var_get f (off + 3 * i + 2)%Z) as [v|]; simpl; [|done].
    by intros [= <-].
Qed.

Lemma read_force_is_Some (penalty : bool) f (off i : Z) :
  (∀ k, (0 ≤ k < shift_of penalty)%Z →
        is_Some (var_get f (off + shift_of penalty * i + k)%Z)) →
  is_Some (read_force (shift_of penalty) f off i).
Proof.
  intros Hk. unfold read_force.
  destruct penalty; cbn [shift_of negb Z.eqb Pos.eqb] in *.
  - destruct (Hk 0%Z) as [np ->]; [lia|].
    destruct (Hk 1%Z) as [nn ->]; [lia|]. simpl.
    replace (off + 4 * i + 1 + 1)%Z with (off + 4 * i + 2)%Z by lia.
    replace (off + 4 * i + 2 + 1)%Z with (off + 4 * i + 3)%Z by lia.
    destruct (Hk 2%Z) as [u ->]; [lia|].
    destruct (Hk 3%Z) as [v ->]; [lia|]. by eexists.
  - destruct (Hk 0%Z) as [np ->]; [lia|]. simpl.
    rewrite !Z.add_0_r.
    destruct (Hk 1%Z) as [u ->]; [lia|].
    destruct (Hk 2%Z) as [v ->]; [lia|]. by eexists.
Qed.

Lemma save_total (penalty : bool) f ls (off : Z) h :
  (∀ l, l ∈ ls → is_Some (h !! l)) →
  (∀ j, (off ≤ j < off + shift_of penalty
                        * Z.of_nat (sum_list (npoints h <$> ls)))%Z →
        is_Some (var_get f j)) →
  is_Some (foldM (save_interface (shift_of penalty) f) (off, h) ls).
Proof.
  revert off h. induction ls as [|l0 ls IH]; intros off h Hdom Hf;
    cbn [foldM]; [by eexists|].
  destruct (Hdom l0) as [itf Hl0]; [by left|].
  assert (Hn : npoints h l0 = length (points itf))
    by (unfold npoints; by rewrite Hl0).
  rewrite fmap_cons, sum_list_cons, Hn in Hf.
  assert (Hshift : (shift_of penalty = 3 ∨ shift_of penalty = 4)%Z)
    by (destruct penalty; [by right | by left]).
  destruct (mapM (λ i, read_force (shift_of penalty) f off (Z.of_nat i))
              (seq 0 (length (points itf)))) as [fs|] eqn:Hfs.
  - assert (Hstep : save_interface (shift_of penalty) f (off, h) l0
               = Some ((off + shift_of penalty * Z.of_nat (length (points itf)))%Z,
                       <[l0 := set_forces fs itf]> h)).
    { apply save_interface_Some. by exists itf, fs. }
    rewrite Hstep. apply IH.
    + intros l Hl. destruct (decide (l0 = l)) as [<-|Hne].
      * rewrite lookup_insert_eq. by eexists.
      * rewrite lookup_insert_ne by done. apply Hdom. by right.
    + intros j Hj. apply Hf.
      assert (Hsum : npoints (<[l0 := set_forces fs itf]> h) <$> ls
                     = npoints h <$> ls).
      { apply list_fmap_ext. intros _ l _. by apply npoints_insert. }
      rewrite Hsum in Hj. nia.
  - exfalso. apply mapM_None_1, Exists_exists in Hfs as (i & Hi & Hnone).
    apply elem_of_seq in Hi.
    destruct (read_force_is_Some penalty f off (Z.of_nat i)) as [fc Hfc];
      [|congruence].
    intros k Hk. apply Hf. nia.
Qed.

(** ** The loop over the nodes *)

Lemma set_displacement_other (nds : list (Node V K)) (key : K) (d : list V) :
  key ∉ node_key <$> nds →
  node_attribute_set_displacement nds key d = nds.
Proof.
  intros Hnin. unfold node_attribute_set_displacement.
  induction nds as [|nd nds IH]; [done|].
  rewrite fmap_cons in Hnin. apply not_elem_of_cons in Hnin as [Hne Hnin].
  rewrite fmap_cons, IH by done.
  by rewrite decide_False by done.
Qed.

Lemma save_displacement_loop (q : list V) (suf pre : list (Node V K))
    (off : nat) :
  NoDup (node_key <$> (pre ++ suf)) →
  ∃ off', foldM (save_displacement q) (off, pre ++ suf) (node_key <$> suf)
          = Some (off', pre ++ displaced q off suf).
Proof.
  revert pre off. induction suf as [|nd suf IH]; intros pre off Hnd.
  - exists off. by rewrite !app_nil_r.
  - cbn [fmap list_fmap foldM]. unfold save_displacement at 1. cbn [fst snd].
    assert (Hi : (pre ++ nd :: suf) !! length pre = Some nd)
      by apply list_lookup_middle, eq_refl.
    rewrite (find_node_lookup _ _ _ Hnd Hi). cbn [mbind option_bind].
    rewrite fmap_app, fmap_cons in Hnd.
    pose proof Hnd as Hnd'.
    apply NoDup_app in Hnd' as (_ & Hpre & Hsuf).
    apply NoDup_cons in Hsuf as [Hsuf _].
    cbn [displaced]. destruct (is_support nd) eqn:Hs.
    + destruct (IH (pre ++ [nd]) off) as [off' Hrun].
      { rewrite <- app_assoc, fmap_app. exact Hnd. }
      exists off'. rewrite <- !app_assoc in Hrun. exact Hrun.
    + set (nd' := set_displacement (py_slice q off (off + 6)%nat) nd).
      assert (Hset : node_attribute_set_displacement (pre ++ nd :: suf)
                       (node_key nd) (py_slice q off (off + 6)%nat)
                     = pre ++ nd' :: suf).
      { pose proof set_displacement_other as Hother.
        unfold node_attribute_set_displacement in *.
        rewrite fmap_app, fmap_cons, decide_True by done.
        rewrite (Hother pre), (Hother suf); [done | done |].
        intros Hin. apply (Hpre (node_key nd)); [done | by left]. }
      rewrite Hset.
      destruct (IH (pre ++ [nd']) (off + 6)%nat) as [off' Hrun].
      { rewrite <- app_assoc, fmap_app. exact Hnd. }
      exists off'. rewrite <- !app_assoc in Hrun. exact Hrun.
Qed.

Lemma displaced_lookup (q : list V) (nds : list (Node V K)) (off j : nat) nd :
  nds !! j = Some nd →
  displaced q off nds !! j
  = Some (if is_support nd then nd
          else set_displacement
                 (py_slice q (off + 6 * free_nodes_before nds j)%nat
                    (off + 6 * free_nodes_before nds j + 6)%nat) nd).
Proof.
  revert off j. induction nds as [|n0 nds IH]; intros off j Hj; [done|].
  destruct j as [|j].
  - injection Hj as ->. unfold free_nodes_before. cbn [take filter list_filter length].
    cbn [displaced]. destruct (is_support nd); [done|].
    simpl. by rewrite Nat.add_0_r.
  - cbn [lookup list_lookup] in Hj. unfold free_nodes_before.
    cbn [take displaced]. rewrite filter_cons.
    destruct (is_support n0) eqn:Hs.
    + rewrite decide_False by congruence.
      exact (IH off j Hj).
    + rewrite decide_True by done.
      etrans; [exact (IH (off + 6)%nat j Hj)|].
      unfold free_nodes_before. cbn [length].
      replace (off + 6 + 6 * length (filter (λ nd0, is_support nd0 = false) (take j nds)))%nat
        with (off + 6 * S (length (filter (λ nd0, is_support nd0 = false) (take j nds))))%nat
        by lia.
      done.
Qed.

Lemma length_displaced (q : list V) (nds : list (Node V K)) (off : nat) :
  length (displaced q off nds) = length nds.
Proof.
  revert off. induction nds as [|nd nds IH]; intros off; [done|].
  cbn [displaced]. destruct (is_support nd); simpl; by rewrite IH.
Qed.

Lemma last_occurrence ls (k : nat) (l : loc) :
  ls !! k = Some l → ∃ k', ls !! k' = Some l ∧ l ∉ drop (S k') ls.
Proof.
  revert k. induction ls as [|x ls IH]; intros k Hk; [done|].
  destruct (decide (l ∈ ls)) as [Hin|Hnin].
  - apply list_elem_of_lookup in Hin as [k1 Hk1].
    destruct (IH k1 Hk1) as (k' & Hk' & Hd). by exists (S k').
  - destruct k as [|k].
    + injection Hk as ->. by exists 0%nat.
    + exfalso. apply Hnin. apply list_elem_of_lookup. by exists k.
Qed.

(** ** The whole routine *)

Lemma pyomo_result_assembly_run (model : Model V) (assembly : Assembly V K)
    (penalty verbose : bool) :
  result_inputs_ok model assembly penalty →
  ∃ (off : Z) (h' : gmap loc (Interface V)) (nds' : list (Node V K)),
    foldM (save_interface (shift_of penalty) (model_f model))
          (0%Z, store assembly) (interfaces_of (graph_edges assembly))
      = Some (off, h') ∧
    match model_q model with
    | None => nds' = graph_nodes assembly
    | Some mq =>
        ∃ q, mapM (λ i, var_get mq (Z.of_nat i)) (seq 0 (var_len mq)) = Some q ∧
             nds' = displaced q 0 (graph_nodes assembly)
    end ∧
    pyomo_result_assembly model assembly penalty verbose
      = Some {| graph_nodes := nds'; graph_edges := graph_edges assembly;
                store := h' |}.
Proof.
  intros (Hnd & Hdom & Hf & Hq).
  destruct (save_total penalty (model_f model)
              (interfaces_of (graph_edges assembly)) 0%Z (store assembly))
    as [[off h'] Hrun]; [done | by intros j Hj; apply Hf; lia |].
  unfold pyomo_result_assembly. rewrite save_forces_visits, Hrun.
  cbn [mbind option_bind snd].
  destruct (model_q model) as [mq|] eqn:Hmq.
  - destruct (mapM (λ i, var_get mq (Z.of_nat i)) (seq 0 (var_len mq)))
      as [q|] eqn:Hql.
    + destruct (save_displacement_loop q (graph_nodes assembly) [] 0%nat)
        as [off' Hloop]; [done|].
      exists off, h', (displaced q 0 (graph_nodes assembly)).
      split; [done|]. split; [by exists q|].
      cbn [mbind option_bind]. unfold nodes.
      simpl in Hloop. by rewrite Hloop.
    + exfalso. apply mapM_None_1, Exists_exists in Hql as (i & Hi & Hnone).
      apply elem_of_seq in Hi. destruct (Hq mq eq_refl i) as [x Hx]; [lia|].
      congruence.
  - by exists off, h', (graph_nodes assembly).
Qed.

(** C3. The forces of contact point [i] of the interface visited at
    position [k] are read at the indices [offset + shift * i + c], where
    [shift] is 4 with [penalty] and 3 without and [offset] is [shift] times
    the number of points of the interfaces visited before; once the
    interface is done the offset has advanced by [shift * n].  Without
    [penalty] the stored 'c_nn' is the constant 0 and 'c_u', 'c_v' come from
    [+1], [+2]; with [penalty] 'c_nn', 'c_u', 'c_v' come from [+1], [+2],
    [+3].  The list stays on the interface unless a later edge holds the
    same interface again. *)
Theorem pyomo_result_assembly_forces (model : Model V)
    (assembly : Assembly V K) (penalty verbose : bool) :
  result_inputs_ok model assembly penalty →
  ∃ assembly',
    pyomo_result_assembly model assembly penalty verbose = Some assembly' ∧
    shift_of penalty = (if penalty then 4 else 3)%Z ∧
    ∀ (k : nat) (l : loc),
      interfaces_of (graph_edges assembly) !! k = Some l →
      ∃ (itf : Interface V) (fs : list (Force V)) (hk : gmap loc (Interface V)),
        let shift := shift_of penalty in
        let offset :=
          (shift * Z.of_nat (points_before (store assembly)
                               (interfaces_of (graph_edges assembly)) k))%Z in
        store assembly !! l = Some itf ∧
        length fs = length (points itf) ∧
        foldM (save_interface shift (model_f model)) (0%Z, store assembly)
              (take (S k) (interfaces_of (graph_edges assembly)))
          = Some ((offset + shift * Z.of_nat (length (points itf)))%Z, hk) ∧
        forces <$> hk !! l = Some (Some fs) ∧
        (l ∉ drop (S k) (interfaces_of (graph_edges assembly)) →
         forces <$> store assembly' !! l = Some (Some fs)) ∧
        ∀ (i : nat) (fc : Force V),
          fs !! i = Some fc →
          var_get (model_f model) (offset + shift * Z.of_nat i)%Z
            = Some (c_np fc) ∧
          if penalty
          then var_get (model_f model) (offset + shift * Z.of_nat i + 1)%Z
                 = Some (c_nn fc) ∧
               var_get (model_f model) (offset + shift * Z.of_nat i + 2)%Z
                 = Some (c_u fc) ∧
               var_get (model_f model) (offset + shift * Z.of_nat i + 3)%Z
                 = Some (c_v fc)
          else c_nn fc = vzero ∧
               var_get (model_f model) (offset + shift * Z.of_nat i + 1)%Z
                 = Some (c_u fc) ∧
               var_get (model_f model) (offset + shift * Z.of_nat i + 2)%Z
                 = Some (c_v fc).
Proof.
  intros Hok.
  destruct (pyomo_result_assembly_run model assembly penalty verbose Hok)
    as (off & h' & nds' & Hrun & _ & Hres).
  eexists. split; [exact Hres|]. split; [by destruct penalty|].
  intros k l Hk.
  destruct (save_visit _ _ _ _ _ _ _ _ Hrun Hk)
    as (itf & fs & hk & Hl & Hfs & Hprefix & Hstored & Hlast).
  exists itf, fs, hk. cbn zeta.
  split; [done|].
  split; [by rewrite <- (length_mapM _ _ _ Hfs), length_seq|].
  split.
  { rewrite Hprefix. do 2 f_equal. unfold points_before.
    rewrite (take_S_r _ _ _ Hk), fmap_app, sum_list_with_app.
    rewrite fmap_cons, fmap_nil, sum_list_cons, sum_list_nil.
    assert (Hn : npoints (store assembly) l = length (points itf))
      by (unfold npoints; by rewrite Hl).
    rewrite Hn. lia. }
  split; [done|].
  split.
  { intros Hnin. cbn [store]. by rewrite (Hlast Hnin). }
  intros i fc Hi.
  apply mapM_Some_1 in Hfs.
  destruct (Forall2_lookup_r _ _ _ _ _ Hfs Hi) as (x & Hx & Hread).
  apply lookup_seq in Hx as [-> _].
  exact (read_force_indices penalty _ _ _ _ Hread).
Qed.


(** C10. The write-back changes the forces of the interfaces held by the
    edges and the displacement of the nodes that are not supports, and
    nothing else: edges, node keys, support flags, block volumes, other node
    attributes, the set of interface objects, their points and other
    attributes, the interfaces no edge holds, and the supports are as
    before. *)
Theorem pyomo_result_assembly_frame (model : Model V)
    (assembly : Assembly V K) (penalty verbose : bool) :
  result_inputs_ok model assembly penalty →
  ∃ assembly',
    pyomo_result_assembly model assembly penalty verbose = Some assembly' ∧
    graph_edges assembly' = graph_edges assembly ∧
    Forall2 (λ nd' nd,
               node_key nd' = node_key nd ∧ is_support nd' = is_support nd ∧
               block_volume nd' = block_volume nd ∧
               node_attrs nd' = node_attrs nd ∧
               (is_support nd = true ∨ model_q model = None → nd' = nd))
            (graph_nodes assembly') (graph_nodes assembly) ∧
    dom (store assembly') = dom (store assembly) ∧
    (∀ l, points <$> store assembly' !! l = points <$> store assembly !! l) ∧
    (∀ l, interface_attrs <$> store assembly' !! l
          = interface_attrs <$> store assembly !! l) ∧
    (∀ l, l ∉ interfaces_of (graph_edges assembly) →
          store assembly' !! l = store assembly !! l) ∧
    (∀ l, l ∈ interfaces_of (graph_edges assembly) →
          ∃ fs, forces <$> store assembly' !! l = Some (Some fs)).
Proof.
  intros Hok.
  destruct (pyomo_result_assembly_run model assembly penalty verbose Hok)
    as (off & h' & nds' & Hrun & Hnds & Hres).
  eexists. split; [exact Hres|]. cbn [graph_nodes graph_edges store].
  destruct (save_run _ _ _ _ _ _ _ Hrun) as (_ & Hframe & _ & Hpts & Hat).
  split; [done|].
  split.
  { destruct (model_q model) as [mq|].
    - destruct Hnds as (q & _ & ->).
      apply Forall2_same_length_lookup. split; [apply length_displaced|].
      intros j nd' nd Hj' Hj.
      rewrite (displaced_lookup q _ 0 j nd Hj) in Hj'. injection Hj' as <-.
      destruct (is_support nd) eqn:Hs.
      + by rewrite Hs.
      + cbn. repeat split; try done. intros [?|?]; congruence.
    - subst nds'. apply Forall2_same_length_lookup. split; [done|].
      intros j nd' nd Hj' Hj. by simplify_eq. }
  split.
  { apply set_eq. intros l. rewrite !elem_of_dom.
    specialize (Hpts l).
    destruct (h' !! l), (store assembly !! l); simpl in Hpts;
      try done; split; intros [? ?]; done. }
  split; [done|]. split; [done|]. split; [done|].
  intros l [k Hk]%list_elem_of_lookup.
  destruct (last_occurrence _ _ _ Hk) as (k' & Hk' & Hd).
  destruct (save_visit _ _ _ _ _ _ _ _ Hrun Hk')
    as (itf & fs & hk & _ & _ & _ & Hstored & Hlast).
  exists fs. by rewrite (Hlast Hd).
Qed.

End ResultFacts.

(** * The routines on the small assembly *)

Example equilibrium_setup_demo :
  equilibrium_setup Demo.set_order Demo.make_aeq Demo.assembly
  = Some ((λ r, [Z.of_nat r]) <$> seq 6 12, 3%nat, [1; 2]%nat).
Proof. vm_compute. reflexivity. Qed.

Example static_equilibrium_constraints_demo :
  static_equilibrium_constraints Demo.make_afr (Demo.model 9 false)
    Demo.assembly [] 3 [2; 1]%nat 10%Z 7%Z
  = Some ({| mc_A := [];
             mc_lb := Some <$> [0; 0; 50; 0; 0; 0; 0; 0; 30; 0; 0; 0]%Z;
             mc_ub := Some <$> [0; 0; 50; 0; 0; 0; 0; 0; 30; 0; 0; 0]%Z;
             mc_x := Z.of_nat <$> seq 0 9 |},
          {| mc_A := replicate 24 [7%Z];
             mc_lb := replicate 24 None;
             mc_ub := replicate 24 (Some 0%Z);
             mc_x := Z.of_nat <$> seq 0 9 |}).
Proof. vm_compute. reflexivity. Qed.

Example pyomo_result_assembly_demo :
  (λ a, (forces <$> store a !! 0%nat, forces <$> store a !! 1%nat,
         displacement <$> graph_nodes a))
    <$> pyomo_result_assembly (Demo.model 9 true) Demo.assembly false false
  = Some (Some (Some [ {| c_np := 100; c_nn := 0; c_u := 101; c_v := 102 |};
                       {| c_np := 103; c_nn := 0; c_u := 104; c_v := 105 |} ]),
          Some (Some [ {| c_np := 106; c_nn := 0; c_u := 107; c_v := 108 |} ]),
          [None;
           Some [1000; 1001; 1002; 1003; 1004; 1005];
           Some [1006; 1007; 1008; 1009; 1010; 1011]])%Z.
Proof. vm_compute. reflexivity. Qed.

Example pyomo_result_assembly_penalty_demo :
  (λ a, (forces <$> store a !! 0%nat, forces <$> store a !! 1%nat,
         displacement <$> graph_nodes a))
    <$> pyomo_result_assembly (Demo.model 12 false) Demo.assembly true false
  = Some (Some (Some [ {| c_np := 100; c_nn := 101; c_u := 102; c_v := 103 |};
                       {| c_np := 104; c_nn := 105; c_u := 106; c_v := 107 |} ]),
          Some (Some [ {| c_np := 108; c_nn := 109; c_u := 110; c_v := 111 |} ]),
          [None; None; None])%Z.
Proof. vm_compute. reflexivity. Qed.

(** Too few force values: the lookup of a missing index raises. *)
Example pyomo_result_assembly_short_demo :
  pyomo_result_assembly (Demo.model 8 false) Demo.assembly false false = None.
Proof. vm_compute. reflexivity. Qed.

(** ** The theorems at the small assembly *)

Lemma demo_var_of_get (base : Z) (n s : nat) (j : Z) :
  (Z.of_nat s ≤ j < Z.of_nat s + Z.of_nat n)%Z →
  var_get ((λ i, (Z.of_nat i, base + Z.of_nat i)%Z) <$> seq s n) j
  = Some (base + j)%Z.
Proof.
  revert s. induction n as [|n IH]; intros s Hj; [lia|].
  cbn [seq fmap list_fmap var_get].
  destruct (Z.eqb_spec (Z.of_nat s) j) as [<-|Hne]; [done|].
  apply (IH (S s)). lia.
Qed.

Lemma demo_nodes_distinct : NoDup (nodes Demo.assembly).
Proof. apply (bool_decide_unpack _). by vm_compute. Qed.

Lemma demo_inputs_ok (penalty with_q : bool) :
  result_inputs_ok (Demo.model (if penalty then 12 else 9) with_q)
    Demo.assembly penalty.
Proof.
  split; [exact demo_nodes_distinct|].
  split.
  { intros l Hl. change (l ∈ [0; 1]%nat) in Hl.
    apply elem_of_cons in Hl as [->|Hl]; [by eexists|].
    apply list_elem_of_singleton in Hl as ->. by eexists. }
  split.
  { intros j Hj. exists (100 + j)%Z.
    assert (Hs : sum_list (npoints (store Demo.assembly)
                             <$> interfaces_of (graph_edges Demo.assembly))
                 = 3%nat) by reflexivity.
    rewrite Hs in Hj.
    destruct penalty; cbn [shift_of negb] in Hj;
      apply (demo_var_of_get 100 _ 0 j); lia. }
  intros mq Hq i Hi. destruct with_q; [|done].
  injection Hq as <-. exists (1000 + Z.of_nat i)%Z.
  change (i < 12)%nat in Hi.
  apply (demo_var_of_get 1000 12 0). lia.
Qed.

Lemma equilibrium_setup_free_rows_witness :
  ∃ aeq free,
    equilibrium_setup Demo.set_order Demo.make_aeq Demo.assembly
      = Some (aeq, 3%nat, free) ∧
    NoDup free ∧ length aeq = (6 * length free)%nat.
Proof.
  destruct (equilibrium_setup_free_rows Demo.set_order Demo.make_aeq
              Demo.assembly)
    as (aeq & free & Heq & Hnd & _ & _ & Hlen & _).
  - intros s. apply merge_sort_Permutation.
  - apply (bool_decide_unpack _). by vm_compute.
  - apply (bool_decide_unpack _). by vm_compute.
  - by exists aeq, free.
Defined.



Lemma pyomo_result_assembly_forces_witness :
  ∃ assembly',
    pyomo_result_assembly (Demo.model 9 true) Demo.assembly false false
      = Some assembly' ∧
    shift_of false = 3%Z.
Proof.
  destruct (pyomo_result_assembly_forces (Demo.model 9 true) Demo.assembly
              false false (demo_inputs_ok false true))
    as (assembly' & Hrun & Hshift & _).
  by exists assembly'.
Defined.


Lemma pyomo_result_assembly_frame_witness :
  ∃ assembly',
    pyomo_result_assembly (Demo.model 9 false) Demo.assembly false false
      = Some assembly' ∧
    graph_edges assembly' = graph_edges Demo.assembly ∧
    dom (store assembly') = dom (store Demo.assembly).
Proof.
  destruct (pyomo_result_assembly_frame (Demo.model 9 false) Demo.assembly
              false false (demo_inputs_ok false false))
    as (assembly' & Hrun & Hedges & _ & Hdom & _).
  by exists assembly'.
Defined.

(** * Further properties of the formula selectors *)

Section FormulaExtras.
Context {V : Type} `{Num V}.
Local Open Scope Z_scope.

Lemma foldM_None_elem {S A : Type} (g : S → A → option S) (l : list A)
    (s : S) (x : A) :
  x ∈ l → (∀ s', g s' x = None) → foldM g s l = None.
Proof.
  intros Hin Hx. revert s. induction l as [|y l IH]; intros s.
  - by apply elem_of_nil in Hin.
  - cbn [foldM]. apply elem_of_cons in Hin as [<-|Hin].
    + by rewrite Hx.
    + destruct (g s y); [by apply IH | done].
Qed.

Lemma foldM_ext_in {S A : Type} (g g' : S → A → option S) (l : list A) (s : S) :
  (∀ s' x, x ∈ l → g s' x = g' s' x) → foldM g s l = foldM g' s l.
Proof.
  revert s. induction l as [|y l IH]; intros s Hext; [done|].
  cbn [foldM]. rewrite (Hext s y) by (by left).
  destruct (g' s y); [|done]. apply IH. intros s' x Hx. apply Hext. by right.
Qed.

Lemma var_get_index (a : Var V) (i : Z) : i ∈ a.*1 → is_Some (var_get a i).
Proof.
  induction a as [|[j x] a IH]; intros Hin.
  - by apply elem_of_nil in Hin.
  - cbn [var_get]. destruct (Z.eqb_spec j i) as [_|Hne]; [by eexists|].
    rewrite fmap_cons in Hin. apply elem_of_cons in Hin as [Heq|Hin].
    + simpl in Heq. congruence.
    + by apply IH.
Qed.

Lemma alpha_values (a : Var V) : is_Some (mapM (var_get a) (a.*1)).
Proof.
  apply mapM_is_Some_2, Forall_forall. intros i Hi. by apply var_get_index.
Qed.

Lemma residue_4 (k r : Z) : 0 ≤ r < 4 → (k * 4 + r) mod 4 = r.
Proof.
  intros Hr. rewrite Z.add_comm, Z_mod_plus_full. by apply Z.mod_small.
Qed.

(** X1. For every contact point [k] the four initial values of f~ at the
    indices 4k .. 4k+3 are 1, 0, 1, 1, also for a negative [k]. *)
Theorem f_tilde_init_pattern (model : Model V) (k : Z) :
  f_tilde_init model <$> [k * 4; k * 4 + 1; k * 4 + 2; k * 4 + 3]
  = [vone; vzero; vone; vone].
Proof.
  unfold f_tilde_init. cbn [fmap list_fmap].
  replace (k * 4) with (k * 4 + 0) at 1 by lia.
  rewrite !residue_4 by lia. reflexivity.
Qed.

(** X2. A model that holds the initial values of f~ at the two normal
    components of contact point [i] meets the rule 'fn_np' there: its left
    side is the product of the initial values 1 and 0, its right side 0. *)
Theorem initial_point_meets_fn_np (model : Model V) (i : Z) :
  var_get (model_f model) (i * 4) = Some (f_tilde_init model (i * 4)) →
  var_get (model_f model) (i * 4 + 1) = Some (f_tilde_init model (i * 4 + 1)) →
  fn_np_con model i = Some (CEq (vmul vone vzero) vzero).
Proof.
  intros H0 H1. unfold fn_np_con. rewrite H0, H1. cbn [mbind option_bind].
  unfold f_tilde_init.
  rewrite (residue_4 i 1) by lia.
  replace (i * 4) with (i * 4 + 0) by lia.
  rewrite (residue_4 i 0) by lia. reflexivity.
Qed.

(** X3. The 'cra' objective raises exactly when some index of [f_id] that
    is a multiple of 3 has no member in [f]; the dot product of alpha with
    itself never raises. *)
Theorem obj_cra_raises_iff (model : Model V) :
  obj_cra model = None ↔
  ∃ i, i ∈ model_f_id model ∧ i mod 3 = 0 ∧ var_get (model_f model) i = None.
Proof.
  rewrite obj_cra_value. unfold cra_objective_value.
  destruct (alpha_values (model_alpha model)) as [al Hal]. rewrite Hal.
  destruct (mapM (var_get (model_f model)) _) as [fn|] eqn:Hfn;
    cbn [mbind option_bind].
  - split; [done|]. intros (i & Hin & Hi & Hnone). exfalso.
    assert (Hs : is_Some (mapM (var_get (model_f model))
                            (filter (λ i, i mod 3 = 0) (model_f_id model))))
      by (by eexists).
    apply mapM_is_Some_1, Forall_forall with (x := i) in Hs.
    + simpl in Hs. rewrite Hnone in Hs. by destruct Hs.
    + by apply list_elem_of_filter.
  - split; [|done]. intros _.
    apply mapM_None_1, Exists_exists in Hfn as (i & Hin & Hnone).
    apply list_elem_of_filter in Hin as [Hi Hin]. by exists i.
Qed.

(** X4. The 'rbe' objective depends only on the normal forces and on the
    weights W_compression and W_tension: two models with the same [f_id]
    whose [f] agree at the indices of residue 0 or 1 modulo 4, and two
    weight tuples that agree at positions 1 and 2, give the same value,
    whatever alpha, W_alpha and the tangential forces are. *)
Theorem obj_rbe_depends_on_normal_forces
    (weights weights' : list V) (model model' : Model V) :
  model_f_id model = model_f_id model' →
  (∀ i, i ∈ model_f_id model → i mod 4 = 0 ∨ i mod 4 = 1 →
        var_get (model_f model) i = var_get (model_f model') i) →
  weights !! 1%nat = weights' !! 1%nat →
  weights !! 2%nat = weights' !! 2%nat →
  obj_rbe weights model = obj_rbe weights' model'.
Proof.
  intros Hid Hf Hw1 Hw2. unfold obj_rbe, _obj_weights. rewrite <- Hid.
  apply foldM_ext_in. intros acc i Hin.
  destruct (Z.eqb_spec (i mod 4) 1) as [Hr|_].
  - rewrite (Hf i Hin) by (by right). by rewrite Hw2.
  - destruct (Z.eqb_spec (i mod 4) 0) as [Hr|_]; [|done].
    rewrite (Hf i Hin) by (by left). by rewrite Hw1.
Qed.

(** X5. The 'cra' objective depends on [f] only at the multiples of 3:
    two models with the same [f_id] and alpha whose [f] agree there give the
    same value, whatever the tangential forces are. *)
Theorem obj_cra_depends_on_normal_forces (model model' : Model V) :
  model_f_id model = model_f_id model' →
  model_alpha model = model_alpha model' →
  (∀ i, i ∈ model_f_id model → i mod 3 = 0 →
        var_get (model_f model) i = var_get (model_f model') i) →
  obj_cra model = obj_cra model'.
Proof.
  intros Hid Hal Hf. unfold obj_cra. rewrite <- Hid, <- Hal.
  destruct (dot_product _ _); cbn [mbind option_bind]; [|done].
  f_equal. apply foldM_ext_in. intros acc i Hin.
  destruct (Z.eqb_spec (i mod 3) 0) as [Hr|_]; [|done].
  by rewrite (Hf i Hin Hr).
Qed.

(** X6. With fewer than three weights, 'rbe' and 'cra_penalty' raise as
    soon as [f_id] holds an index of residue 1 modulo 4 (a tension
    component), whether or not [f] has a member there. *)
Theorem short_weights_raise (weights : list V) (model : Model V) (i : Z) :
  (length weights < 3)%nat →
  i ∈ model_f_id model →
  i mod 4 = 1 →
  obj_rbe weights model = None ∧ obj_cra_penalty weights model = None.
Proof.
  intros Hlen Hin Hr.
  assert (Hw : _obj_weights weights model = None).
  { unfold _obj_weights. apply (foldM_None_elem _ _ _ i Hin). intros acc.
    rewrite Hr. cbn [Z.eqb Pos.eqb].
    rewrite (lookup_ge_None_2 weights 2) by lia.
    by destruct (var_get (model_f model) i). }
  split; [exact Hw|]. unfold obj_cra_penalty. rewrite Hw.
  destruct (dot_product _ _); cbn [mbind option_bind]; [|done].
  by destruct (weights !! 0%nat).
Qed.

End FormulaExtras.

Lemma initial_point_meets_fn_np_witness :
  fn_np_con {| model_f := [(0, 1); (1, 0); (2, 1); (3, 1)]%Z; model_d := [];
               model_alpha := []; model_f_id := [0; 1; 2; 3]%Z;
               model_q := None; model_displs := []; model_forces := [];
               model_array_f := [] |} 0
  = Some (CEq (0 : Z) 0)%Z.
Proof.
  exact (initial_point_meets_fn_np (V:=Z)
           {| model_f := [(0, 1); (1, 0); (2, 1); (3, 1)]%Z; model_d := [];
              model_alpha := []; model_f_id := [0; 1; 2; 3]%Z;
              model_q := None; model_displs := []; model_forces := [];
              model_array_f := [] |} 0%Z eq_refl eq_refl).
Defined.

Lemma obj_rbe_depends_on_normal_forces_witness :
  obj_rbe [1; 2; 3]%Z
    {| model_f := [(0, 2); (1, 3); (2, 5); (3, 7)]%Z; model_d := [];
       model_alpha := [(0, 4)]%Z; model_f_id := [0; 1; 2; 3]%Z;
       model_q := None; model_displs := []; model_forces := [];
       model_array_f := [] |}
  = obj_rbe [9; 2; 3]%Z
      {| model_f := [(0, 2); (1, 3); (2, 11); (3, 13)]%Z; model_d := [];
         model_alpha := [(0, 6)]%Z; model_f_id := [0; 1; 2; 3]%Z;
         model_q := None; model_displs := []; model_forces := [];
         model_array_f := [] |}.
Proof.
  apply (obj_rbe_depends_on_normal_forces (V:=Z)); try reflexivity.
  intros i Hin [Hr|Hr];
    repeat (apply elem_of_cons in Hin as [->|Hin]; [try done|]);
    by apply elem_of_nil in Hin.
Defined.

Lemma obj_cra_depends_on_normal_forces_witness :
  obj_cra
    {| model_f := [(0, 2); (1, 3); (2, 5)]%Z; model_d := [];
       model_alpha := [(0, 4)]%Z; model_f_id := [0; 1; 2]%Z;
       model_q := None; model_displs := []; model_forces := [];
       model_array_f := [] |}
  = obj_cra
      {| model_f := [(0, 2); (1, 11); (2, 13)]%Z; model_d := [];
         model_alpha := [(0, 4)]%Z; model_f_id := [0; 1; 2]%Z;
         model_q := None; model_displs := []; model_forces := [];
         model_array_f := [] |}.
Proof.
  apply (obj_cra_depends_on_normal_forces (V:=Z)); try reflexivity.
  intros i Hin Hr;
    repeat (apply elem_of_cons in Hin as [->|Hin]; [try done|]);
    by apply elem_of_nil in Hin.
Defined.

Lemma short_weights_raise_witness :
  obj_rbe [1; 1]%Z (Demo.model 4 false) = None ∧
  obj_cra_penalty [1; 1]%Z (Demo.model 4 false) = None.
Proof.
  apply (short_weights_raise (V:=Z) [1; 1]%Z (Demo.model 4 false) 1%Z).
  - simpl. lia.
  - apply (bool_decide_unpack _). by vm_compute.
  - reflexivity.
Defined.

(** * Further properties of the equilibrium set-up *)

Section SetupExtras.
Context {V : Type} `{Num V} {K : Type} `{Countable K}.

Implicit Types (assembly : Assembly V K) (nd : Node V K).

(** The set of free indices, and the routine in terms of it, for every
    listing order at once. *)
Lemma equilibrium_setup_split (make_aeq : Assembly V K → Matrix V * nat)
    assembly :
  NoDup (nodes assembly) →
  ∃ S : gset nat,
    (∀ index, index ∈ S ↔
       ∃ nd, graph_nodes assembly !! index = Some nd ∧ is_support nd = false) ∧
    ∀ set_order : gset nat → list nat,
      equilibrium_setup set_order make_aeq assembly
      = aeq ← mapM (λ r, (make_aeq assembly).1 !! r) (free_rows (set_order S));
        Some (aeq, (make_aeq assembly).2, set_order S).
Proof.
  intros Hnd.
  destruct (fixed_indices assembly Hnd) as (fixed & Hfixed & Hfix).
  exists (list_to_set (seq 0 (number_of_nodes assembly)) ∖ list_to_set fixed).
  split.
  - intros index.
    rewrite elem_of_difference, !elem_of_list_to_set, elem_of_seq, Hfix.
    unfold number_of_nodes. split.
    + intros [[_ Hlt] Hns]. apply lookup_lt_is_Some_2 in Hlt as [nd Hi].
      exists nd. split; [done|]. destruct (is_support nd) eqn:Hs; [|done].
      exfalso. apply Hns. eauto.
    + intros (nd & Hi & Hs). split.
      * apply lookup_lt_Some in Hi. lia.
      * intros (nd' & Hi' & Hs'). congruence.
  - intros set_order. unfold equilibrium_setup. rewrite Hfixed.
    cbn [mbind option_bind]. by destruct (make_aeq assembly).
Qed.

Lemma free_list_of_set (set_order : gset nat → list nat) (S : gset nat) :
  (∀ s, set_order s ≡ₚ elements s) →
  NoDup (set_order S) ∧ ∀ index, index ∈ set_order S ↔ index ∈ S.
Proof.
  intros Hperm. split.
  - rewrite Hperm. apply NoDup_elements.
  - intros index. by rewrite Hperm, elem_of_elements.
Qed.

Lemma free_rows_within (free : list nat) (m : Matrix V) (n : nat) :
  (∀ index, index ∈ free → index < n)%nat →
  (6 * n ≤ length m)%nat →
  is_Some (mapM (λ r, m !! r) (free_rows free)).
Proof.
  intros Hfree Hlen. apply mapM_is_Some_2, Forall_forall. intros r Hr.
  apply elem_of_free_rows in Hr as (index & i & Hin & Hi & ->).
  apply lookup_lt_is_Some_2. specialize (Hfree index Hin). lia.
Qed.

(** ** Counting the free nodes *)

Lemma count_free_indices (pre l : list (Node V K)) :
  length (filter (λ i, is_support <$> (pre ++ l) !! i = Some false)
            (seq (length pre) (length l)))
  = length (filter (λ nd, is_support nd = false) l).
Proof.
  revert pre. induction l as [|nd l IH]; intros pre; [done|].
  cbn [length seq]. rewrite !filter_cons.
  rewrite list_lookup_middle by done. cbn [fmap option_fmap option_map].
  specialize (IH (pre ++ [nd])).
  rewrite <- app_assoc, length_app, Nat.add_1_r in IH. cbn [app] in IH.
  destruct (is_support nd) eqn:Hs.
  - rewrite decide_False by congruence.
    rewrite (decide_False (P := true = false)) by congruence. exact IH.
  - rewrite decide_True by done.
    rewrite (decide_True (P := false = false)) by done.
    cbn [length]. by rewrite IH.
Qed.

Lemma length_free_list assembly (free : list nat) :
  NoDup free →
  (∀ index, index ∈ free ↔
     ∃ nd, graph_nodes assembly !! index = Some nd ∧ is_support nd = false) →
  length free
  = length (filter (λ nd, is_support nd = false) (graph_nodes assembly)).
Proof.
  intros Hnd Hfree.
  rewrite <- (count_free_indices [] (graph_nodes assembly)). cbn [app length].
  apply Permutation_length, NoDup_Permutation; [done| |].
  - apply NoDup_filter, NoDup_seq.
  - intros index. rewrite Hfree, list_elem_of_filter, elem_of_seq. split.
    + intros (nd & Hi & Hs). rewrite Hi. cbn. rewrite Hs.
      split; [done|]. apply lookup_lt_Some in Hi. lia.
    + intros [Hs _]. destruct (graph_nodes assembly !! index) as [nd|];
        [|done].
      exists nd. split; [done|]. by injection Hs.
Qed.

(** X7. The shape of the result: the free list has one entry per node that
    is not a support and the returned matrix six rows per such node. *)
Theorem equilibrium_setup_shape
    (set_order : gset nat → list nat)
    (make_aeq : Assembly V K → Matrix V * nat) assembly :
  (∀ s, set_order s ≡ₚ elements s) →
  NoDup (nodes assembly) →
  (6 * number_of_nodes assembly ≤ length (make_aeq assembly).1)%nat →
  ∃ aeq vcount free,
    equilibrium_setup set_order make_aeq assembly = Some (aeq, vcount, free) ∧
    length free
    = length (filter (λ nd, is_support nd = false) (graph_nodes assembly)) ∧
    length aeq
    = (6 * length (filter (λ nd, is_support nd = false)
                     (graph_nodes assembly)))%nat.
Proof.
  intros Hperm Hnd Hlen.
  destruct (equilibrium_setup_split make_aeq assembly Hnd) as (S & HS & Heq).
  destruct (free_list_of_set set_order S Hperm) as [Hfnd Hfin].
  assert (Hfree : ∀ index, index ∈ set_order S ↔
            ∃ nd, graph_nodes assembly !! index = Some nd ∧ is_support nd = false)
    by (intros index; by rewrite Hfin, HS).
  destruct (free_rows_within (set_order S) (make_aeq assembly).1
              (number_of_nodes assembly)) as [aeq Haeq]; [|done|].
  { intros index (nd & Hi & _)%Hfree. by apply lookup_lt_Some in Hi. }
  exists aeq, (make_aeq assembly).2, (set_order S).
  rewrite Heq, Haeq. split; [done|].
  pose proof (length_free_list assembly _ Hfnd Hfree) as Hl.
  split; [done|].
  by rewrite <- (length_mapM _ _ _ Haeq), length_free_rows, Hl.
Qed.

(** X8. When every node is a support the free list and the matrix are
    empty, whatever the raw matrix is. *)
Theorem equilibrium_setup_all_supports
    (set_order : gset nat → list nat)
    (make_aeq : Assembly V K → Matrix V * nat) assembly :
  (∀ s, set_order s ≡ₚ elements s) →
  NoDup (nodes assembly) →
  Forall (λ nd, is_support nd = true) (graph_nodes assembly) →
  equilibrium_setup set_order make_aeq assembly
  = Some ([], (make_aeq assembly).2, []).
Proof.
  intros Hperm Hnd Hall.
  destruct (equilibrium_setup_split make_aeq assembly Hnd) as (S & HS & Heq).
  destruct (free_list_of_set set_order S Hperm) as [_ Hfin].
  assert (Hnil : set_order S = []).
  { assert (Hempty : ∀ index, index ∉ set_order S).
    { intros index (nd & Hi & Hs)%Hfin%HS.
      apply list_elem_of_lookup_2 in Hi.
      rewrite Forall_forall in Hall. specialize (Hall nd Hi). congruence. }
    destruct (set_order S) as [|index free]; [done|].
    exfalso. apply (Hempty index). by left. }
  by rewrite Heq, Hnil.
Qed.

(** X9. When the raw matrix lacks one of the six rows of a node that is not
    a support, the row selection raises. *)
Theorem equilibrium_setup_missing_row
    (set_order : gset nat → list nat)
    (make_aeq : Assembly V K → Matrix V * nat) assembly (index : nat) nd :
  (∀ s, set_order s ≡ₚ elements s) →
  NoDup (nodes assembly) →
  graph_nodes assembly !! index = Some nd →
  is_support nd = false →
  (length (make_aeq assembly).1 < 6 * index + 6)%nat →
  equilibrium_setup set_order make_aeq assembly = None.
Proof.
  intros Hperm Hnd Hi Hs Hlen.
  destruct (equilibrium_setup_split make_aeq assembly Hnd) as (S & HS & Heq).
  destruct (free_list_of_set set_order S Hperm) as [_ Hfin].
  rewrite Heq.
  assert (Hnone : mapM (λ r, (make_aeq assembly).1 !! r)
                    (free_rows (set_order S)) = None); [|by rewrite Hnone].
  apply mapM_None_2, Exists_exists. exists (6 * index + 5)%nat. split.
  - apply elem_of_free_rows. exists index, 5%nat.
    split; [apply Hfin, HS; eauto|]. split; lia.
  - apply lookup_ge_None_2. lia.
Qed.

(** ** Independence of the listing order *)

Lemma mapM_Permutation {A B : Type} (g : A → option B) (l l' : list A)
    (k : list B) :
  l ≡ₚ l' → mapM g l = Some k → ∃ k', mapM g l' = Some k' ∧ k ≡ₚ k'.
Proof.
  intros Hperm. revert k.
  induction Hperm as [|x l l' _ IH|x y l|l1 l2 l3 _ IH1 _ IH2]; intros k Hk.
  - exists []. by injection Hk as <-.
  - cbn [mapM] in *. destruct (g x) as [b|]; [|done].
    cbn [mbind option_bind] in *.
    destruct (mapM g l) as [k0|] eqn:Hk0; [|done].
    cbn [mbind option_bind fmap option_fmap option_map] in *.
    injection Hk as <-.
    destruct (IH k0 eq_refl) as (k' & -> & Hk'). exists (b :: k').
    split; [done|]. by constructor.
  - cbn [mapM] in *. destruct (g x) as [b|], (g y) as [c|]; try done;
      cbn [mbind option_bind] in *; destruct (mapM g l) as [k0|]; try done.
    cbn [mbind option_bind fmap option_fmap option_map] in *.
    injection Hk as <-. exists (b :: c :: k0). split; [done|]. constructor.
  - destruct (IH1 k Hk) as (k1 & Hk1 & Hp1).
    destruct (IH2 k1 Hk1) as (k2 & Hk2 & Hp2).
    exists k2. split; [done|]. by etrans.
Qed.

(** X10. The listing order of the set only permutes the result: for two
    orders the free lists are permutations of each other, and so are the
    returned matrices (as lists of rows); [vcount] is the same. *)
Theorem equilibrium_setup_order_independent
    (set_order set_order' : gset nat → list nat)
    (make_aeq : Assembly V K → Matrix V * nat) assembly
    (aeq : Matrix V) (vcount : nat) (free : list nat) :
  (∀ s, set_order s ≡ₚ elements s) →
  (∀ s, set_order' s ≡ₚ elements s) →
  NoDup (nodes assembly) →
  equilibrium_setup set_order make_aeq assembly = Some (aeq, vcount, free) →
  ∃ aeq' free',
    equilibrium_setup set_order' make_aeq assembly
      = Some (aeq', vcount, free') ∧
    free ≡ₚ free' ∧ aeq ≡ₚ aeq'.
Proof.
  intros Hperm Hperm' Hnd Hrun.
  destruct (equilibrium_setup_split make_aeq assembly Hnd) as (S & _ & Heq).
  rewrite Heq in Hrun.
  destruct (mapM _ (free_rows (set_order S))) as [rows|] eqn:Hrows; [|done].
  cbn [mbind option_bind] in Hrun. injection Hrun as <- <- <-.
  assert (Hfree : set_order S ≡ₚ set_order' S) by (by rewrite Hperm, Hperm').
  assert (Hfr : free_rows (set_order S) ≡ₚ free_rows (set_order' S)).
  { unfold free_rows. by rewrite Hfree. }
  destruct (mapM_Permutation _ _ _ _ Hfr Hrows) as (rows' & Hrows' & Hp).
  exists rows', (set_order' S). by rewrite Heq, Hrows'.
Qed.

End SetupExtras.

(** * Further properties of the constraint blocks *)

Section ConstraintExtras.
Context {V : Type} `{Num V} {K : Type} `{Countable K}.

Implicit Types (assembly : Assembly V K) (nd : Node V K).

Lemma lookup_bind_block {A B : Type} (g : A → list B) (n : nat)
    (l : list A) (t : nat) (x : A) (c : nat) :
  Forall (λ y, length (g y) = n) l →
  l !! t = Some x → (c < n)%nat →
  (l ≫= g) !! (n * t + c)%nat = g x !! c.
Proof.
  intros Hlen. revert t. induction Hlen as [|y l Hy _ IH]; intros t Ht Hc.
  - by rewrite lookup_nil in Ht.
  - rewrite bind_cons. destruct t as [|t].
    + injection Ht as ->. rewrite Nat.mul_0_r, Nat.add_0_l.
      apply lookup_app_l. lia.
    + cbn [lookup list_lookup] in Ht.
      rewrite lookup_app_r by lia. rewrite <- (IH t Ht Hc). f_equal. lia.
Qed.

Lemma free_rows_lookup (free : list nat) (t index c : nat) :
  free !! t = Some index → (c < 6)%nat →
  free_rows free !! (6 * t + c)%nat = Some (index * 6 + c)%nat.
Proof.
  intros Ht Hc. unfold free_rows.
  rewrite (lookup_bind_block _ 6 free t index c); [| |done|done].
  - do 6 (destruct c as [|c]; [cbn; do 2 f_equal; lia|]). lia.
  - apply Forall_forall. by intros.
Qed.

Lemma stacked_weights_lookup assembly (free : list nat) (density : V)
    (t index c : nat) nd :
  Forall (λ i, i < number_of_nodes assembly)%nat free →
  free !! t = Some index →
  graph_nodes assembly !! index = Some nd →
  (c < 6)%nat →
  stacked_weights assembly free density !! (6 * t + c)%nat
  = weight_row density nd !! c.
Proof.
  intros Hfree Ht Hi Hc. unfold stacked_weights.
  rewrite (lookup_bind_block _ 6 free t index c); [by rewrite Hi| |done|done].
  eapply Forall_impl; [exact Hfree|]. intros i Hlt. cbn beta in *.
  by apply lookup_lt_is_Some_2 in Hlt as [nd' ->].
Qed.

Lemma length_stacked_weights assembly (free : list nat) (density : V) :
  Forall (λ i, i < number_of_nodes assembly)%nat free →
  length (stacked_weights assembly free density) = (6 * length free)%nat.
Proof.
  unfold stacked_weights. induction 1 as [|i free Hi _ IH]; [done|].
  apply lookup_lt_is_Some_2 in Hi as [nd Hi].
  rewrite bind_cons, Hi, length_app, IH. simpl. lia.
Qed.

(** X11. The two routines compose: the free list and matrix returned by
    [equilibrium_setup] are accepted by [static_equilibrium_constraints],
    the equilibrium block has one bound per row, and row [6t + c] of the
    block is raw row [6 * index + c] of the node at [index = free[t]] and
    carries the bound [-(weight of that node)[c]]. *)
Theorem setup_then_constraints
    (set_order : gset nat → list nat)
    (make_aeq : Assembly V K → Matrix V * nat)
    (make_afr : nat → nat → V → Matrix V)
    (model : Model V) assembly (density mu : V) :
  (∀ s, set_order s ≡ₚ elements s) →
  NoDup (nodes assembly) →
  (6 * number_of_nodes assembly ≤ length (make_aeq assembly).1)%nat →
  ∃ aeq vcount free equilibrium_constraints friction_constraint,
    equilibrium_setup set_order make_aeq assembly = Some (aeq, vcount, free) ∧
    static_equilibrium_constraints make_afr model assembly aeq vcount free
      density mu = Some (equilibrium_constraints, friction_constraint) ∧
    length (mc_lb equilibrium_constraints)
      = length (mc_A equilibrium_constraints) ∧
    length (mc_ub equilibrium_constraints)
      = length (mc_A equilibrium_constraints) ∧
    ∀ (t index c : nat) nd,
      free !! t = Some index →
      graph_nodes assembly !! index = Some nd →
      (c < 6)%nat →
      mc_A equilibrium_constraints !! (6 * t + c)%nat
        = (make_aeq assembly).1 !! (6 * index + c)%nat ∧
      mc_ub equilibrium_constraints !! (6 * t + c)%nat
        = (λ x, Some (vneg x)) <$> weight_row density nd !! c.
Proof.
  intros Hperm Hnd Hlen.
  destruct (equilibrium_setup_split make_aeq assembly Hnd) as (S & HS & Heq).
  destruct (free_list_of_set set_order S Hperm) as [Hfnd Hfin].
  assert (Hfree : Forall (λ i, i < number_of_nodes assembly)%nat (set_order S)).
  { apply Forall_forall. intros index (nd & Hi & _)%Hfin%HS.
    by apply lookup_lt_Some in Hi. }
  destruct (free_rows_within (set_order S) (make_aeq assembly).1
              (number_of_nodes assembly)) as [aeq Haeq]; [|done|].
  { by apply Forall_forall. }
  exists aeq, (make_aeq assembly).2, (set_order S).
  do 2 eexists. rewrite Heq, Haeq.
  split; [done|].
  split; [by apply static_equilibrium_constraints_value|].
  cbn [mc_A mc_lb mc_ub].
  assert (Hsw : length (stacked_weights assembly (set_order S) density)
                = length aeq).
  { by rewrite <- (length_mapM _ _ _ Haeq), length_free_rows,
       length_stacked_weights. }
  split; [by rewrite length_fmap|]. split; [by rewrite length_fmap|].
  intros t index c nd Ht Hi Hc. split.
  - pose proof (free_rows_lookup _ _ _ _ Ht Hc) as Hr.
    apply mapM_Some_1 in Haeq.
    destruct (Forall2_lookup_l _ _ _ _ _ Haeq Hr) as (row & Hrow' & Hrow).
    etrans; [exact Hrow'|]. rewrite <- Hrow. f_equal. lia.
  - rewrite list_lookup_fmap.
    by rewrite (stacked_weights_lookup _ _ _ _ _ _ _ Hfree Ht Hi Hc).
Qed.

(** X12. A free index that is not the index of a node makes
    [static_equilibrium_constraints] raise. *)
Theorem static_equilibrium_constraints_bad_index
    (make_afr : nat → nat → V → Matrix V) (model : Model V) assembly
    (aeq : Matrix V) (vcount : nat) (free : list nat) (density mu : V)
    (i : nat) :
  NoDup (nodes assembly) →
  i ∈ free →
  (number_of_nodes assembly ≤ i)%nat →
  static_equilibrium_constraints make_afr model assembly aeq vcount free
    density mu = None.
Proof.
  intros Hnd Hin Hge. unfold static_equilibrium_constraints.
  pose proof (weight_loop assembly density [] (graph_nodes assembly) Hnd eq_refl)
    as Hloop.
  match goal with
  | |- context [foldM ?body ?p0 (nodes assembly)] =>
      assert (Hp : foldM body p0 (nodes assembly)
                   = Some (weight_row density <$> graph_nodes assembly))
        by exact Hloop
  end.
  rewrite Hp. cbn [mbind option_bind].
  assert (Hnone : mapM (λ j, (weight_row density <$> graph_nodes assembly) !! j)
                    free = None); [|by rewrite Hnone].
  apply mapM_None_2, Exists_exists. exists i. split; [done|].
  apply lookup_ge_None_2. by rewrite length_fmap.
Qed.

(** X13. The blocks do not depend on the volumes of the nodes outside the
    free list: two assemblies with as many nodes, whose blocks have the same
    volume at every free index, give the same constraints. *)
Theorem static_equilibrium_constraints_free_volumes
    (make_afr : nat → nat → V → Matrix V) (model : Model V)
    (assembly assembly' : Assembly V K)
    (aeq : Matrix V) (vcount : nat) (free : list nat) (density mu : V) :
  NoDup (nodes assembly) →
  NoDup (nodes assembly') →
  number_of_nodes assembly = number_of_nodes assembly' →
  Forall (λ i, i < number_of_nodes assembly)%nat free →
  (∀ i, i ∈ free →
        block_volume <$> graph_nodes assembly !! i
        = block_volume <$> graph_nodes assembly' !! i) →
  static_equilibrium_constraints make_afr model assembly aeq vcount free
    density mu
  = static_equilibrium_constraints make_afr model assembly' aeq vcount free
      density mu.
Proof.
  intros Hnd Hnd' Hn Hfree Hvol.
  rewrite !static_equilibrium_constraints_value by (by rewrite <- ?Hn).
  assert (Hsw : stacked_weights assembly free density
                = stacked_weights assembly' free density); [|by rewrite Hsw].
  unfold stacked_weights. clear Hfree.
  induction free as [|i free IH]; [done|].
  rewrite !bind_cons, IH by (intros j Hj; apply Hvol; by right).
  f_equal. specialize (Hvol i (list_elem_of_here _ _)).
  destruct (graph_nodes assembly !! i) as [nd|],
           (graph_nodes assembly' !! i) as [nd'|]; try done.
  unfold weight_row. cbn in Hvol. by injection Hvol as ->.
Qed.

End ConstraintExtras.

(** * Further properties of the write-back *)

Section ResultExtras.
Context {V : Type} `{Num V} {K : Type} `{Countable K}.

Implicit Types (h : gmap loc (Interface V)) (ls : list loc) (f : Var V).

(** ** Every index below [shift] times the number of points is read *)

Lemma split_index (s x : Z) (n : nat) :
  (0 < s)%Z → (0 ≤ x < s * Z.of_nat n)%Z →
  ∃ (i : nat) (c : Z), (i < n)%nat ∧ (0 ≤ c < s)%Z ∧ x = (s * Z.of_nat i + c)%Z.
Proof.
  intros Hs Hx. exists (Z.to_nat (x / s)), (x mod s)%Z.
  assert (0 ≤ x / s)%Z by (apply Z.div_pos; lia).
  assert (x / s < Z.of_nat n)%Z by (apply Z.div_lt_upper_bound; lia).
  pose proof (Z.mod_pos_bound x s Hs).
  pose proof (Z_div_mod_eq_full x s).
  split; [lia|]. split; [done|]. rewrite Z2Nat.id by done. lia.
Qed.

Lemma read_force_covers (penalty : bool) f (off i c : Z) (fc : Force V) :
  read_force (shift_of penalty) f off i = Some fc →
  (0 ≤ c < shift_of penalty)%Z →
  is_Some (var_get f (off + shift_of penalty * i + c)%Z).
Proof.
  intros Hread Hc. apply read_force_indices in Hread as [Hnp Hrest].
  destruct penalty; cbn [shift_of negb] in *.
  - destruct Hrest as (Hnn & Hu & Hv).
    assert (c = 0 ∨ c = 1 ∨ c = 2 ∨ c = 3)%Z as [-> | [-> | [-> | ->]]] by lia;
      rewrite ?Z.add_0_r; by eexists.
  - destruct Hrest as (_ & Hu & Hv).
    assert (c = 0 ∨ c = 1 ∨ c = 2)%Z as [-> | [-> | ->]] by lia;
      rewrite ?Z.add_0_r; by eexists.
Qed.

Lemma shift_of_pos (penalty : bool) : (0 < shift_of penalty)%Z.
Proof. by destruct penalty. Qed.

Lemma save_reads (penalty : bool) f ls (off off' : Z) h h' :
  foldM (save_interface (shift_of penalty) f) (off, h) ls = Some (off', h') →
  ∀ j, (off ≤ j < off + shift_of penalty
                        * Z.of_nat (sum_list (npoints h <$> ls)))%Z →
       is_Some (var_get f j).
Proof.
  revert off h. induction ls as [|l0 ls IH]; intros off h Hrun j Hj.
  - rewrite fmap_nil, sum_list_nil in Hj. lia.
  - cbn [foldM] in Hrun.
    destruct (save_interface (shift_of penalty) f (off, h) l0)
      as [[off1 h1]|] eqn:Hstep; [|done].
    apply save_interface_Some in Hstep as (itf & fs & Hl0 & Hfs & -> & ->).
    assert (Hn : npoints h l0 = length (points itf))
      by (unfold npoints; by rewrite Hl0).
    rewrite fmap_cons, sum_list_cons, Hn in Hj.
    pose proof (shift_of_pos penalty) as Hpos.
    destruct (decide (j < off + shift_of penalty
                               * Z.of_nat (length (points itf)))%Z) as [Hlt|Hge].
    + destruct (split_index (shift_of penalty) (j - off)
                  (length (points itf)) Hpos) as (i & c & Hi & Hc & Heq);
        [lia|].
      apply mapM_Some_1 in Hfs.
      destruct (Forall2_lookup_l _ _ _ i i Hfs) as (fc & _ & Hread);
        [by apply lookup_seq_lt|].
      replace j with (off + shift_of penalty * Z.of_nat i + c)%Z by lia.
      by apply (read_force_covers penalty f off (Z.of_nat i) c fc).
    + apply (IH _ _ Hrun).
      assert (Hsum : npoints (<[l0 := set_forces fs itf]> h) <$> ls
                     = npoints h <$> ls).
      { apply list_fmap_ext. intros _ l _. by apply npoints_insert. }
      rewrite Hsum. lia.
Qed.

(** X14. When the node keys are distinct, the interfaces of the edges exist
    and [q] is indexed from 0, the write-back returns exactly when [model.f]
    has a member at every index below [shift] times the total number of
    contact points: each of these indices is read. *)
Theorem pyomo_result_assembly_returns_iff (model : Model V)
    (assembly : Assembly V K) (penalty verbose : bool) :
  NoDup (node_key <$> graph_nodes assembly) →
  (∀ l, l ∈ interfaces_of (graph_edges assembly) →
        is_Some (store assembly !! l)) →
  (∀ mq, model_q model = Some mq →
         ∀ i, (i < var_len mq)%nat → is_Some (var_get mq (Z.of_nat i))) →
  is_Some (pyomo_result_assembly model assembly penalty verbose) ↔
  ∀ j : Z,
    (0 ≤ j < shift_of penalty
             * Z.of_nat (sum_list (npoints (store assembly)
                                     <$> interfaces_of (graph_edges assembly))))%Z →
    is_Some (var_get (model_f model) j).
Proof.
  intros Hnd Hdom Hq. split.
  - intros [a' Hres] j Hj. unfold pyomo_result_assembly in Hres.
    rewrite save_forces_visits in Hres.
    destruct (foldM _ _ (interfaces_of (graph_edges assembly)))
      as [[off h']|] eqn:Hrun; [|done].
    apply (save_reads penalty _ _ _ _ _ _ Hrun j). lia.
  - intros Hf.
    destruct (pyomo_result_assembly_run model assembly penalty verbose)
      as (off & h' & nds' & _ & _ & Hres); [done|].
    rewrite Hres. by eexists.
Qed.

(** X15. After the write-back every interface held by an edge has one force
    record per contact point, also when several edges hold it. *)
Theorem forces_one_per_contact_point (model : Model V)
    (assembly : Assembly V K) (penalty verbose : bool) :
  result_inputs_ok model assembly penalty →
  ∃ assembly',
    pyomo_result_assembly model assembly penalty verbose = Some assembly' ∧
    ∀ l, l ∈ interfaces_of (graph_edges assembly) →
      ∃ (itf' : Interface V) (fs : list (Force V)),
        store assembly' !! l = Some itf' ∧
        forces itf' = Some fs ∧
        length fs = length (points itf').
Proof.
  intros Hok.
  destruct (pyomo_result_assembly_run model assembly penalty verbose Hok)
    as (off & h' & nds' & Hrun & _ & Hres).
  eexists. split; [exact Hres|]. cbn [store].
  intros l [k Hk]%list_elem_of_lookup.
  destruct (last_occurrence _ _ _ Hk) as (k' & Hk' & Hd).
  destruct (save_visit _ _ _ _ _ _ _ _ Hrun Hk')
    as (itf & fs & hk & Hl & Hfs & _ & Hstored & Hlast).
  destruct (save_run _ _ _ _ _ _ _ Hrun) as (_ & _ & _ & Hpts & _).
  specialize (Hpts l). rewrite Hl in Hpts. rewrite <- (Hlast Hd) in Hstored.
  destruct (h' !! l) as [itf'|]; [|done].
  exists itf', fs. cbn in Hpts, Hstored.
  injection Hpts as Hpts. injection Hstored as Hstored.
  split; [done|]. split; [done|].
  by rewrite Hpts, <- (length_mapM _ _ _ Hfs), length_seq.
Qed.

(** ** Running the write-back again *)

Lemma displaced_keys (q : list V) (nds : list (Node V K)) (off : nat) :
  node_key <$> displaced q off nds = node_key <$> nds.
Proof.
  revert off. induction nds as [|nd nds IH]; intros off; [done|].
  cbn [displaced]. destruct (is_support nd); rewrite !fmap_cons, IH; done.
Qed.

Lemma displaced_again (q : list V) (nds : list (Node V K)) (off : nat) :
  displaced q off (displaced q off nds) = displaced q off nds.
Proof.
  revert off. induction nds as [|nd nds IH]; intros off; [done|].
  cbn [displaced]. destruct (is_support nd) eqn:Hs; cbn [displaced].
  - by rewrite Hs, IH.
  - cbn [is_support set_displacement]. rewrite Hs, IH. done.
Qed.

Lemma interface_eq (a b : option (Interface V)) :
  points <$> a = points <$> b →
  forces <$> a = forces <$> b →
  interface_attrs <$> a = interface_attrs <$> b →
  a = b.
Proof.
  destruct a as [[]|], b as [[]|]; cbn; intros; by simplify_eq.
Qed.

(** X16. The write-back is idempotent: applied with the same model to the
    assembly it has just returned, it returns that assembly again. *)
Theorem pyomo_result_assembly_idempotent (model : Model V)
    (assembly : Assembly V K) (penalty verbose : bool) :
  result_inputs_ok model assembly penalty →
  ∃ assembly',
    pyomo_result_assembly model assembly penalty verbose = Some assembly' ∧
    pyomo_result_assembly model assembly' penalty verbose = Some assembly'.
Proof.
  intros Hok.
  destruct (pyomo_result_assembly_run model assembly penalty verbose Hok)
    as (off & h' & nds' & Hrun & Hnds & Hres).
  eexists. split; [exact Hres|].
  destruct (save_run _ _ _ _ _ _ _ Hrun) as (_ & Hframe & Hnp & Hpts & Hat).
  destruct Hok as (Hnd & Hdom & Hf & Hq).
  set (ls := interfaces_of (graph_edges assembly)) in *.
  assert (Hkeys : node_key <$> nds' = node_key <$> graph_nodes assembly).
  { destruct (model_q model); [|by subst].
    destruct Hnds as (q & _ & ->). apply displaced_keys. }
  assert (Hsum : npoints h' <$> ls = npoints (store assembly) <$> ls).
  { apply list_fmap_ext. intros _ l _. apply Hnp. }
  assert (Hok' : result_inputs_ok model
                   {| graph_nodes := nds'; graph_edges := graph_edges assembly;
                      store := h' |} penalty).
  { split; [cbn; by rewrite Hkeys|]. cbn [graph_edges store]. fold ls.
    split.
    - intros l Hl. destruct (Hdom l Hl) as [itf Hitf].
      specialize (Hpts l). rewrite Hitf in Hpts.
      destruct (h' !! l); [by eexists | done].
    - split; [by rewrite Hsum | done]. }
  destruct (pyomo_result_assembly_run model _ penalty verbose Hok')
    as (off2 & h2 & nds2 & Hrun2 & Hnds2 & Hres2).
  cbn [graph_nodes graph_edges store] in *. fold ls in Hrun2.
  assert (Hn2 : nds2 = nds').
  { destruct (model_q model) as [mq|]; [|by subst].
    destruct Hnds as (q & Hql & ->). destruct Hnds2 as (q2 & Hql2 & ->).
    rewrite Hql in Hql2. injection Hql2 as <-. apply displaced_again. }
  assert (Hh2 : h2 = h'); [|by rewrite Hres2, Hn2, Hh2].
  destruct (save_run _ _ _ _ _ _ _ Hrun2) as (_ & Hframe2 & _ & Hpts2 & Hat2).
  apply map_eq. intros l. destruct (decide (l ∈ ls)) as [Hin|Hnin].
  - apply interface_eq; [apply Hpts2 | | apply Hat2].
    apply list_elem_of_lookup in Hin as [k Hk].
    destruct (last_occurrence _ _ _ Hk) as (k' & Hk' & Hd).
    destruct (save_visit _ _ _ _ _ _ _ _ Hrun Hk')
      as (itf & fs & hk & Hl & Hfs & _ & Hstored & Hlast).
    destruct (save_visit _ _ _ _ _ _ _ _ Hrun2 Hk')
      as (itf2 & fs2 & hk2 & Hl2 & Hfs2 & _ & Hstored2 & Hlast2).
    rewrite (Hlast Hd), (Hlast2 Hd), Hstored, Hstored2. do 2 f_equal.
    specialize (Hpts l). rewrite Hl, Hl2 in Hpts. injection Hpts as Hpts.
    unfold points_before in Hfs2.
    assert (Hpb : npoints h' <$> take k' ls
                  = npoints (store assembly) <$> take k' ls).
    { apply list_fmap_ext. intros _ l' _. apply Hnp. }
    rewrite Hpb, Hpts in Hfs2. unfold points_before in Hfs.
    congruence.
  - by apply Hframe2.
Qed.

(** X17. When [model.q] has no member at some index below its length (it is
    not indexed by 0 .. len - 1), the write-back raises. *)
Theorem pyomo_result_assembly_q_index (model : Model V)
    (assembly : Assembly V K) (penalty verbose : bool) (mq : Var V) (i : nat) :
  model_q model = Some mq →
  (i < var_len mq)%nat →
  var_get mq (Z.of_nat i) = None →
  pyomo_result_assembly model assembly penalty verbose = None.
Proof.
  intros Hq Hi Hnone. unfold pyomo_result_assembly.
  destruct (save_forces _ _ _ _); cbn [mbind option_bind]; [|done].
  rewrite Hq.
  assert (Hm : mapM (λ i, var_get mq (Z.of_nat i)) (seq 0 (var_len mq)) = None).
  { apply mapM_None_2, Exists_exists. exists i. split; [|done].
    apply elem_of_seq. lia. }
  by rewrite Hm.
Qed.

(** ** The slices of [q] *)

Lemma length_py_slice {A : Type} (l : list A) (a : nat) :
  length (py_slice l a (a + 6)) = (6 `min` (length l - a))%nat.
Proof.
  unfold py_slice. rewrite length_take, length_drop. f_equal. lia.
Qed.

Lemma free_displacements_displaced (q : list V) (nds : list (Node V K))
    (off : nat) :
  free_displacements (displaced q off nds)
  = take (6 * length (filter (λ nd, is_support nd = false) nds)) (drop off q).
Proof.
  unfold free_displacements.
  revert off. induction nds as [|nd nds IH]; intros off; [done|].
  cbn [displaced]. destruct (is_support nd) eqn:Hs.
  - rewrite !filter_cons, !decide_False by congruence. apply IH.
  - rewrite filter_cons, decide_True by done.
    rewrite filter_cons, decide_True by done.
    rewrite bind_cons, IH. cbn [displacement set_displacement default length].
    unfold py_slice, id.
    replace (off + 6 - off)%nat with 6%nat by lia.
    rewrite <- (drop_drop q 6 off), take_take_drop. f_equal. lia.
Qed.

(** X18. A [q] that is too short raises nothing: the node at position [j]
    that is not a support receives a list of [min 6 (len(q) - 6k)] values,
    [k] being the number of nodes before it that are not supports; beyond
    the end of [q] the list is empty. *)
Theorem pyomo_result_assembly_short_q (model : Model V)
    (assembly : Assembly V K) (penalty verbose : bool) (mq : Var V) :
  result_inputs_ok model assembly penalty →
  model_q model = Some mq →
  ∃ assembly',
    pyomo_result_assembly model assembly penalty verbose = Some assembly' ∧
    ∀ (j : nat) (nd : Node V K),
      graph_nodes assembly !! j = Some nd →
      is_support nd = false →
      ∃ (nd' : Node V K) (d : list V),
        graph_nodes assembly' !! j = Some nd' ∧
        displacement nd' = Some d ∧
        length d
        = (6 `min` (var_len mq
                    - 6 * free_nodes_before (graph_nodes assembly) j))%nat.
Proof.
  intros Hok Hq.
  destruct (pyomo_result_assembly_run model assembly penalty verbose Hok)
    as (off & h' & nds' & _ & Hnds & Hres).
  eexists. split; [exact Hres|]. cbn [graph_nodes].
  rewrite Hq in Hnds. destruct Hnds as (q & Hql & ->).
  intros j nd Hj Hs.
  rewrite (displaced_lookup q _ 0 j nd Hj), Hs. do 2 eexists.
  split; [done|]. split; [done|].
  rewrite Nat.add_0_l, length_py_slice.
  by rewrite <- (length_mapM _ _ _ Hql), length_seq.
Qed.

(** X19. The displacement lists written to the nodes that are not supports,
    put one after the other in node order, are the first [6 F] values of
    [q], [F] being the number of such nodes. *)
Theorem written_displacements_concat (model : Model V)
    (assembly : Assembly V K) (penalty verbose : bool) (mq : Var V) :
  result_inputs_ok model assembly penalty →
  model_q model = Some mq →
  ∃ assembly' q,
    pyomo_result_assembly model assembly penalty verbose = Some assembly' ∧
    mapM (λ i, var_get mq (Z.of_nat i)) (seq 0 (var_len mq)) = Some q ∧
    free_displacements (graph_nodes assembly')
    = take (6 * length (filter (λ nd, is_support nd = false)
                          (graph_nodes assembly))) q.
Proof.
  intros Hok Hq.
  destruct (pyomo_result_assembly_run model assembly penalty verbose Hok)
    as (off & h' & nds' & _ & Hnds & Hres).
  rewrite Hq in Hnds. destruct Hnds as (q & Hql & ->).
  eexists _, q. split; [exact Hres|]. split; [done|]. cbn [graph_nodes].
  by rewrite free_displacements_displaced, drop_0.
Qed.

End ResultExtras.

(** ** The further properties at the small assembly *)

Lemma demo_order (s : gset nat) : Demo.set_order s ≡ₚ elements s.
Proof. apply merge_sort_Permutation. Qed.

Lemma equilibrium_setup_shape_witness :
  ∃ aeq vcount free,
    equilibrium_setup Demo.set_order Demo.make_aeq Demo.assembly
      = Some (aeq, vcount, free) ∧
    length free = 2%nat ∧ length aeq = 12%nat.
Proof.
  apply (equilibrium_setup_shape Demo.set_order Demo.make_aeq Demo.assembly).
  - exact demo_order.
  - apply (bool_decide_unpack _). by vm_compute.
  - apply (bool_decide_unpack _). by vm_compute.
Defined.

Lemma equilibrium_setup_all_supports_witness :
  equilibrium_setup Demo.set_order Demo.make_aeq Variants.all_supports
  = Some ([], 3%nat, []).
Proof.
  apply (equilibrium_setup_all_supports Demo.set_order Demo.make_aeq
           Variants.all_supports).
  - exact demo_order.
  - apply (bool_decide_unpack _). by vm_compute.
  - apply (bool_decide_unpack _). by vm_compute.
Defined.

Lemma equilibrium_setup_missing_row_witness :
  equilibrium_setup Demo.set_order Variants.short_aeq Demo.assembly = None.
Proof.
  apply (equilibrium_setup_missing_row Demo.set_order Variants.short_aeq
           Demo.assembly 2 (Demo.node 12 false 5)).
  - exact demo_order.
  - apply (bool_decide_unpack _). by vm_compute.
  - reflexivity.
  - reflexivity.
  - apply (bool_decide_unpack _). by vm_compute.
Defined.

Lemma equilibrium_setup_order_independent_witness :
  ∃ aeq' free',
    equilibrium_setup elements Demo.make_aeq Demo.assembly
      = Some (aeq', 3%nat, free') ∧
    [1; 2]%nat ≡ₚ free' ∧
    ((λ r, [Z.of_nat r]) <$> seq 6 12) ≡ₚ aeq'.
Proof.
  apply (equilibrium_setup_order_independent Demo.set_order elements
           Demo.make_aeq Demo.assembly).
  - exact demo_order.
  - intros s. reflexivity.
  - apply (bool_decide_unpack _). by vm_compute.
  - vm_compute. reflexivity.
Defined.

Lemma setup_then_constraints_witness :
  ∃ aeq vcount free eqc frc,
    equilibrium_setup Demo.set_order Demo.make_aeq Demo.assembly
      = Some (aeq, vcount, free) ∧
    static_equilibrium_constraints Demo.make_afr (Demo.model 9 false)
      Demo.assembly aeq vcount free 10%Z 7%Z = Some (eqc, frc) ∧
    length (mc_lb eqc) = length (mc_A eqc) ∧
    length (mc_ub eqc) = length (mc_A eqc).
Proof.
  destruct (setup_then_constraints Demo.set_order Demo.make_aeq Demo.make_afr
              (Demo.model 9 false) Demo.assembly 10%Z 7%Z)
    as (aeq & vcount & free & eqc & frc & Hs & Hc & Hlb & Hub & _).
  - exact demo_order.
  - apply (bool_decide_unpack _). by vm_compute.
  - apply (bool_decide_unpack _). by vm_compute.
  - by exists aeq, vcount, free, eqc, frc.
Defined.

Lemma static_equilibrium_constraints_bad_index_witness :
  static_equilibrium_constraints Demo.make_afr (Demo.model 9 false)
    Demo.assembly [] 3 [1; 3]%nat 10%Z 7%Z = None.
Proof.
  apply (static_equilibrium_constraints_bad_index Demo.make_afr
           (Demo.model 9 false) Demo.assembly [] 3 [1; 3]%nat 10%Z 7%Z 3).
  - apply (bool_decide_unpack _). by vm_compute.
  - apply (bool_decide_unpack _). by vm_compute.
  - apply (bool_decide_unpack _). by vm_compute.
Defined.

Lemma static_equilibrium_constraints_free_volumes_witness :
  static_equilibrium_constraints Demo.make_afr (Demo.model 9 false)
    Demo.assembly [] 3 [1; 2]%nat 10%Z 7%Z
  = static_equilibrium_constraints Demo.make_afr (Demo.model 9 false)
      Variants.heavy_support [] 3 [1; 2]%nat 10%Z 7%Z.
Proof.
  apply (static_equilibrium_constraints_free_volumes Demo.make_afr
           (Demo.model 9 false) Demo.assembly Variants.heavy_support
           [] 3 [1; 2]%nat 10%Z 7%Z).
  - apply (bool_decide_unpack _). by vm_compute.
  - apply (bool_decide_unpack _). by vm_compute.
  - reflexivity.
  - apply (bool_decide_unpack _). by vm_compute.
  - intros i Hi.
    apply elem_of_cons in Hi as [->|Hi]; [reflexivity|].
    apply list_elem_of_singleton in Hi as ->. reflexivity.
Defined.

Lemma demo_short_q_ok :
  result_inputs_ok Variants.model_short_q Demo.assembly false.
Proof.
  destruct (demo_inputs_ok false true) as (Hnd & Hdom & Hf & _).
  split; [done|]. split; [done|]. split; [done|].
  intros mq [= <-] i Hi. exists (1000 + Z.of_nat i)%Z.
  change (i < 8)%nat in Hi. apply (demo_var_of_get 1000 8 0). lia.
Qed.

Lemma pyomo_result_assembly_returns_iff_witness :
  is_Some (pyomo_result_assembly (Demo.model 9 true) Demo.assembly false false)
  ↔ ∀ j : Z,
      (0 ≤ j < shift_of false
               * Z.of_nat (sum_list (npoints (store Demo.assembly)
                                       <$> interfaces_of
                                             (graph_edges Demo.assembly))))%Z →
      is_Some (var_get (model_f (Demo.model 9 true)) j).
Proof.
  destruct (demo_inputs_ok false true) as (Hnd & Hdom & _ & Hq).
  exact (pyomo_result_assembly_returns_iff (Demo.model 9 true) Demo.assembly
           false false Hnd Hdom Hq).
Defined.

Lemma forces_one_per_contact_point_witness :
  ∃ assembly',
    pyomo_result_assembly (Demo.model 12 false) Demo.assembly true false
      = Some assembly' ∧
    ∃ itf' fs, store assembly' !! 0%nat = Some itf' ∧
               forces itf' = Some fs ∧ length fs = length (points itf').
Proof.
  destruct (forces_one_per_contact_point (Demo.model 12 false)
              Demo.assembly true false (demo_inputs_ok true false))
    as (assembly' & Hrun & Hl).
  exists assembly'. split; [done|]. apply Hl.
  apply (bool_decide_unpack _). by vm_compute.
Defined.

Lemma pyomo_result_assembly_idempotent_witness :
  ∃ assembly',
    pyomo_result_assembly (Demo.model 9 true) Demo.assembly false false
      = Some assembly' ∧
    pyomo_result_assembly (Demo.model 9 true) assembly' false false
      = Some assembly'.
Proof.
  exact (pyomo_result_assembly_idempotent (Demo.model 9 true) Demo.assembly
           false false (demo_inputs_ok false true)).
Defined.

Lemma pyomo_result_assembly_q_index_witness :
  pyomo_result_assembly Variants.model_q_from_1 Demo.assembly false false
  = None.
Proof.
  apply (pyomo_result_assembly_q_index Variants.model_q_from_1 Demo.assembly
           false false [(1, 1000); (2, 1001)]%Z 0).
  - reflexivity.
  - apply (bool_decide_unpack _). by vm_compute.
  - reflexivity.
Defined.

Lemma pyomo_result_assembly_short_q_witness :
  ∃ assembly',
    pyomo_result_assembly Variants.model_short_q Demo.assembly false false
      = Some assembly' ∧
    ∃ nd' d, graph_nodes assembly' !! 2%nat = Some nd' ∧
             displacement nd' = Some d ∧ length d = 2%nat.
Proof.
  destruct (pyomo_result_assembly_short_q Variants.model_short_q Demo.assembly
              false false (Demo.var_of 1000 8) demo_short_q_ok eq_refl)
    as (assembly' & Hrun & Hd).
  exists assembly'. split; [done|].
  exact (Hd 2%nat (Demo.node 12 false 5) eq_refl eq_refl).
Defined.

Lemma written_displacements_concat_witness :
  ∃ assembly' q,
    pyomo_result_assembly (Demo.model 9 true) Demo.assembly false false
      = Some assembly' ∧
    mapM (λ i, var_get (Demo.var_of 1000 12) (Z.of_nat i)) (seq 0 12) = Some q ∧
    free_displacements (graph_nodes assembly') = take 12 q.
Proof.
  exact (written_displacements_concat (Demo.model 9 true)
           Demo.assembly false false (Demo.var_of 1000 12)
           (demo_inputs_ok false true) eq_refl).
Defined.

(** A [q] of eight values: the second free node gets the last two. *)
Example short_q_demo :
  (λ a, displacement <$> graph_nodes a)
    <$> pyomo_result_assembly Variants.model_short_q Demo.assembly false false
  = Some [None; Some [1000; 1001; 1002; 1003; 1004; 1005];
          Some [1006; 1007]]%Z.
Proof. vm_compute. reflexivity. Qed.
